(** * csim: a set-associative LRU cache simulator

    Shallow embedding of [csim.c] and the properties of its access engine:
    address decoding, hit detection, fill / eviction with a global recency
    counter, and the dispatch of trace records. *)

From Stdlib Require Import ZArith Lia Ascii.
From Stdlib Require String.
From stdpp Require Import base option list.

Local Open Scope Z_scope.

(** ** Machine integers *)

(** [int] is a 32-bit two's complement integer.  Overflow of a signed
    increment is undefined in C; the model wraps around, as the program
    compiled by gcc for x86-64 does, which keeps [access_data] total.  The
    theorems about runs are stated for the runs in which no increment
    overflows: those that call [access_data] while [counter] is below
    [INT_MAX].  What becomes of them in longer runs is shown at the end of
    the first part. *)
Definition INT_MAX : Z := 2147483647.
Definition INT_MIN : Z := -2147483648.

Definition int_wrap (z : Z) : Z := (z + 2 ^ 31) mod 2 ^ 32 - 2 ^ 31.

(** [x++] on an [int]. *)
Definition int_incr (z : Z) : Z := int_wrap (z + 1).

(** [mem_addr_t] is [unsigned long long]: 64 bits, arithmetic modulo 2^64. *)
Definition u64 (z : Z) : Z := z mod 2 ^ 64.
Definition is_addr (a : Z) : Prop := 0 <= a < 2 ^ 64.

Definition shl64 (x n : Z) : Z := u64 (Z.shiftl x n).
Definition shr64 (x n : Z) : Z := Z.shiftr x n.
Definition sub64 (x y : Z) : Z := u64 (x - y).

(** ** Data *)

(** [cache_line_t]: the valid flag is a [char] holding ['0'] or ['1']. *)
Record cache_line_t : Type := mk_line {
  valid : ascii;
  tag : Z;
  count : Z
}.

Abbreviation cache_set_t := (list cache_line_t).
Abbreviation cache_t := (list (list cache_line_t)).

(** The globals set from the command line: [b], [s] and [E]. *)
Record config : Type := mk_config {
  b : Z;
  s : Z;
  E : Z
}.

(** The mutable globals: the cache, the three statistics and the LRU
    [counter]. *)
Record state : Type := mk_state {
  cache : cache_t;
  hit_cnt : Z;
  miss_cnt : Z;
  evict_cnt : Z;
  counter : Z
}.

(** [access_data] returns [void]; the model labels the [return] statement
    that was taken. *)
Inductive outcome : Type :=
  | Hit          (* line 165 *)
  | MissFill     (* line 208: a free line was filled *)
  | MissEvict    (* line 221: a line was evicted *)
  | MissNoLine.  (* line 225: neither a free nor an evictable line *)

Definition is_miss (o : outcome) : bool :=
  match o with Hit => false | _ => true end.

(** ** init_cache *)

(** [S = pow(2, s)], the number of sets ([S] itself is the successor of
    [nat]).  For [s] below 0 the power is a fraction and the conversion to
    [int] gives 0, as does [2 ^ s] in [Z].  Above [INT_MAX] the conversion is
    undefined: there [init_cache] has no result, and there is no run.  A
    failing [malloc] ends the program with [exit(1)] before any access; the
    model describes the runs in which the allocations succeed.  The
    requests themselves, and the [exit(1)] of a refused one, are [allocate]
    in the model of [main]. *)
Definition num_sets (g : config) : Z := 2 ^ s g.

Definition empty_line : cache_line_t :=
  {| valid := "0"%char; tag := 0; count := 0 |}.

Definition init_cache (g : config) : option state :=
  if num_sets g <=? INT_MAX then
    Some {| cache := replicate (Z.to_nat (num_sets g))
                       (replicate (Z.to_nat (E g)) empty_line);
            hit_cnt := 0; miss_cnt := 0; evict_cnt := 0;
            counter := 1 |}
  else None.

(** ** access_data *)

Definition sBitMask (g : config) : Z := sub64 (shl64 1 (s g)) 1.
Definition tBitMask (g : config) : Z := sub64 (shl64 1 (64 - b g - s g)) 1.

Definition set_of (g : config) (addr : Z) : Z :=
  Z.land (shr64 addr (b g)) (sBitMask g).
Definition tag_of (g : config) (addr : Z) : Z :=
  Z.land (shr64 addr (b g + s g)) (tBitMask g).

(** [cache[set][line]]; [None] is an access outside the allocated arrays. *)
Definition line_at (c : cache_t) (set line : nat) : option cache_line_t :=
  cs ← c !! set; cs !! line.

(** A store into a field of [cache[set][line]]. *)
Definition write_line (c : cache_t) (set line : nat)
    (f : cache_line_t → cache_line_t) : cache_t :=
  alter (alter f line) set c.

Definition set_count (n : Z) (l : cache_line_t) : cache_line_t :=
  {| valid := valid l; tag := tag l; count := n |}.

Definition fill_line (tg n : Z) (l : cache_line_t) : cache_line_t :=
  {| valid := "1"%char; tag := tg; count := n |}.

Definition is_hit (tg : Z) (l : cache_line_t) : bool :=
  (tag l =? tg) && Ascii.eqb (valid l) "1"%char.

(** The first loop (lines 155-167), started at index [line] with [n]
    iterations left.  [Some (Some i)]: hit at line [i]; [Some None]: the loop
    ran to its end. *)
Fixpoint find_hit (c : cache_t) (set : nat) (tg : Z) (line n : nat)
    : option (option nat) :=
  match n with
  | O => Some None
  | S n' =>
      l ← line_at c set line;
      if is_hit tg l then Some (Some line)
      else find_hit c set tg (S line) n'
  end.

(** The second loop (lines 185-198).  [freeLine] and [evictLine] are [-1]
    until a line is stored in them, here [None]. *)
Fixpoint find_victim (c : cache_t) (set : nat) (line n : nat)
    (evictLine : option nat) (minCount : Z)
    : option (option nat * option nat) :=
  match n with
  | O => Some (None, evictLine)
  | S n' =>
      l ← line_at c set line;
      if Ascii.eqb (valid l) "0"%char then Some (Some line, evictLine)
      else if count l <? minCount
           then find_victim c set (S line) n' (Some line) (count l)
           else find_victim c set (S line) n' evictLine minCount
  end.

Definition access_data (g : config) (addr : Z) (st : state)
    : option (outcome * state) :=
  let set := Z.to_nat (set_of g addr) in
  let tg := tag_of g addr in
  h ← find_hit (cache st) set tg 0 (Z.to_nat (E g));
  match h with
  | Some line =>
      Some (Hit,
        {| cache := write_line (cache st) set line (set_count (counter st));
           hit_cnt := int_incr (hit_cnt st);
           miss_cnt := miss_cnt st;
           evict_cnt := evict_cnt st;
           counter := int_incr (counter st) |})
  | None =>
      let miss_cnt' := int_incr (miss_cnt st) in
      '(freeLine, evictLine) ←
        find_victim (cache st) set 0 (Z.to_nat (E g)) None INT_MAX;
      match freeLine, evictLine with
      | Some fl, _ =>
          Some (MissFill,
            {| cache := write_line (cache st) set fl
                          (fill_line tg (counter st));
               hit_cnt := hit_cnt st;
               miss_cnt := miss_cnt';
               evict_cnt := evict_cnt st;
               counter := int_incr (counter st) |})
      | None, Some el =>
          Some (MissEvict,
            {| cache := write_line (cache st) set el
                          (fill_line tg (counter st));
               hit_cnt := hit_cnt st;
               miss_cnt := miss_cnt';
               evict_cnt := int_incr (evict_cnt st);
               counter := int_incr (counter st) |})
      | None, None =>
          Some (MissNoLine,
            {| cache := cache st;
               hit_cnt := hit_cnt st;
               miss_cnt := miss_cnt';
               evict_cnt := evict_cnt st;
               counter := counter st |})
      end
  end.

(** ** replay_trace *)

(** One line of the trace file after [fgets] and [sscanf]: the operation
    character [buf[1]] and the value [addr] holds after [sscanf], which is
    the parsed address (that of the line before when nothing was
    parsed). *)
Record trace_line : Type := mk_trace_line {
  op : ascii;
  addr : Z
}.

Definition replay_line (g : config) (r : trace_line) (st : state)
    : option (list outcome * state) :=
  if Ascii.eqb (op r) "S"%char || Ascii.eqb (op r) "L"%char
     || Ascii.eqb (op r) "M"%char then
    if Ascii.eqb (op r) "M"%char then
      '(o1, st1) ← access_data g (addr r) st;
      '(o2, st2) ← access_data g (addr r) st1;
      Some ([o1; o2], st2)
    else if Ascii.eqb (op r) "L"%char then
      '(o1, st1) ← access_data g (addr r) st;
      Some ([o1], st1)
    else if Ascii.eqb (op r) "S"%char then
      '(o1, st1) ← access_data g (addr r) st;
      Some ([o1], st1)
    else Some ([], st)
  else Some ([], st).

Fixpoint replay_trace (g : config) (tr : list trace_line) (st : state)
    : option (list outcome * state) :=
  match tr with
  | [] => Some ([], st)
  | r :: tr' =>
      '(os, st1) ← replay_line g r st;
      '(os', st2) ← replay_trace g tr' st1;
      Some (os ++ os', st2)
  end.

(** [main]: build the cache, replay the trace, report the counters. *)
Definition run (g : config) (tr : list trace_line)
    : option (list outcome * state) :=
  st0 ← init_cache g; replay_trace g tr st0.



(** The calls [replay_trace] makes, read off its dispatch: the addresses it
    passes to [access_data], in order. *)
Definition calls_of (r : trace_line) : list Z :=
  if Ascii.eqb (op r) "S"%char || Ascii.eqb (op r) "L"%char
     || Ascii.eqb (op r) "M"%char then
    if Ascii.eqb (op r) "M"%char then [addr r; addr r] else [addr r]
  else [].

Definition calls (tr : list trace_line) : list Z := tr ≫= calls_of.

Fixpoint access_all (g : config) (l : list Z) (st : state)
    : option (list outcome * state) :=
  match l with
  | [] => Some ([], st)
  | a :: l' =>
      '(o, st1) ← access_data g a st;
      '(os, st2) ← access_all g l' st1;
      Some (o :: os, st2)
  end.

(** The geometry [-s 1 -E 1 -b 1] and the trace [L 0,1], [L 8,1], [L 0,1]
    (the addresses are read in hexadecimal). *)
Definition g111 : config := {| b := 1; s := 1; E := 1 |}.

Definition trace111 : list trace_line :=
  [ {| op := "L"%char; addr := 0 |};
    {| op := "L"%char; addr := 8 |};
    {| op := "L"%char; addr := 0 |} ].

(** The fresh cache of [g111], and the same cache after [L 0,1]. *)
Definition fresh111 : state :=
  {| cache := [[empty_line]; [empty_line]];
     hit_cnt := 0; miss_cnt := 0; evict_cnt := 0; counter := 1 |}.

Definition warm111 : state :=
  {| cache := [[{| valid := "1"%char; tag := 0; count := 1 |}]; [empty_line]];
     hit_cnt := 0; miss_cnt := 1; evict_cnt := 0; counter := 2 |}.

(** A two-way geometry, [-s 1 -E 2 -b 1], and its fresh cache. *)
Definition g121 : config := {| b := 1; s := 1; E := 2 |}.

Definition fresh121 : state :=
  {| cache := [[empty_line; empty_line]; [empty_line; empty_line]];
     hit_cnt := 0; miss_cnt := 0; evict_cnt := 0; counter := 1 |}.

(** ** Well-formed inputs *)

(** The address fields: [main] rejects [s == 0] and [b == 0], and they must
    leave room for a tag. *)
Definition valid_fields (g : config) : Prop :=
  0 < b g ∧ 0 < s g ∧ b g + s g < 64.

(** A geometry [main] accepts: valid fields and at least one line per set. *)
Definition valid_config (g : config) : Prop :=
  valid_fields g ∧ 0 < E g.

(** [decode] recombined, with the 64-bit operators of C. *)
Definition recombine (g : config) (addr : Z) : Z :=
  Z.lor (Z.lor (shl64 (tag_of g addr) (b g + s g))
               (shl64 (set_of g addr) (b g)))
        (Z.land addr (sub64 (shl64 1 (b g)) 1)).

(** ** Invariants of a run *)

(** The arrays have the sizes [init_cache] gave them. *)
Record shape_ok (g : config) (st : state) : Prop := mk_shape {
  shape_sets : length (cache st) = Z.to_nat (num_sets g);
  shape_lines : ∀ i cs, cache st !! i = Some cs → length cs = Z.to_nat (E g)
}.

Definition is_valid (l : cache_line_t) : Prop := valid l = "1"%char.
Definition is_free (l : cache_line_t) : Prop := valid l = "0"%char.

(** What holds of every state of a run whose counters stay in [int]. *)
Record Inv (g : config) (st : state) : Prop := mk_Inv {
  inv_shape : shape_ok g st;
  inv_flag : ∀ i j l, line_at (cache st) i j = Some l → is_free l ∨ is_valid l;
  inv_count : ∀ i j l,
    line_at (cache st) i j = Some l → is_valid l → 1 <= count l < counter st;
  inv_distinct : ∀ i j i' j' l l',
    line_at (cache st) i j = Some l → line_at (cache st) i' j' = Some l' →
    is_valid l → is_valid l' → count l = count l' → i = i' ∧ j = j';
  inv_tags : ∀ i j j' l l',
    line_at (cache st) i j = Some l → line_at (cache st) i j' = Some l' →
    is_valid l → is_valid l' → tag l = tag l' → j = j';
  inv_counter : 1 <= counter st <= INT_MAX;
  inv_stats : hit_cnt st + miss_cnt st = counter st - 1
              ∧ 0 <= hit_cnt st ∧ 0 <= evict_cnt st <= miss_cnt st
}.

(** The states of a run: [init_cache], then calls of [access_data], each
    made while [counter] can still be incremented. *)
Inductive reachable (g : config) : state → Prop :=
  | reach_init st0 : init_cache g = Some st0 → reachable g st0
  | reach_step st a o st' :
      reachable g st → is_addr a → counter st < INT_MAX →
      access_data g a st = Some (o, st') → reachable g st'.

(** The loop invariant of the second loop, before iteration [k]. *)
Definition victim_acc (cs : cache_set_t) (k : nat)
    (evictLine : option nat) (minCount : Z) : Prop :=
  (∀ j l, (j < k)%nat → cs !! j = Some l → ¬ is_free l ∧ minCount <= count l)
  ∧ match evictLine with
    | Some e =>
        (e < k)%nat ∧ minCount < INT_MAX
        ∧ (∃ l, cs !! e = Some l ∧ count l = minCount)
        ∧ (∀ j l, (j < e)%nat → cs !! j = Some l → minCount < count l)
    | None => minCount = INT_MAX
    end.

(** The states written by the three paths of [access_data] that touch a
    line, with the counters incremented in [Z]. *)
Definition hit_state (st : state) (set line : nat) : state :=
  {| cache := write_line (cache st) set line (set_count (counter st));
     hit_cnt := hit_cnt st + 1;
     miss_cnt := miss_cnt st;
     evict_cnt := evict_cnt st;
     counter := counter st + 1 |}.

Definition fill_state (st : state) (set line : nat) (tg : Z) : state :=
  {| cache := write_line (cache st) set line (fill_line tg (counter st));
     hit_cnt := hit_cnt st;
     miss_cnt := miss_cnt st + 1;
     evict_cnt := evict_cnt st;
     counter := counter st + 1 |}.

Definition evict_state (st : state) (set line : nat) (tg : Z) : state :=
  {| cache := write_line (cache st) set line (fill_line tg (counter st));
     hit_cnt := hit_cnt st;
     miss_cnt := miss_cnt st + 1;
     evict_cnt := evict_cnt st + 1;
     counter := counter st + 1 |}.

(** [i] is the lowest index of [cs] whose line satisfies [P]. *)
Definition first_at (P : cache_line_t → Prop) (cs : cache_set_t) (i : nat)
    : Prop :=
  (∃ l, cs !! i = Some l ∧ P l)
  ∧ ∀ j l, (j < i)%nat → cs !! j = Some l → ¬ P l.

Definition hits_tag (tg : Z) (l : cache_line_t) : Prop :=
  is_valid l ∧ tag l = tg.

(** The counters after a call that took the [return] labelled [o] and left
    the cache [c']: the increments are those of the code, on [int]. *)
Definition bump (o : outcome) (st : state) (c' : cache_t) : state :=
  {| cache := c';
     hit_cnt := if is_miss o then hit_cnt st else int_incr (hit_cnt st);
     miss_cnt := if is_miss o then int_incr (miss_cnt st) else miss_cnt st;
     evict_cnt := match o with
                  | MissEvict => int_incr (evict_cnt st)
                  | _ => evict_cnt st
                  end;
     counter := match o with
                | MissNoLine => counter st
                | _ => int_incr (counter st)
                end |}.

(** No line of the set holds the tag. *)
Definition absent (tg : Z) (cs : cache_set_t) : Prop :=
  ∀ j l, cs !! j = Some l → ¬ hits_tag tg l.

(** Line [e] has a recency strictly below that of every other line. *)
Definition strictly_oldest (cs : cache_set_t) (e : nat) : Prop :=
  ∃ le, cs !! e = Some le
        ∧ ∀ j l, j ≠ e → cs !! j = Some l → count le < count l.

(** ** Blocks *)

(** The block an address belongs to: the address without its [b] offset
    bits. *)
Definition block_of (g : config) (addr : Z) : Z := Z.shiftr addr (b g).

(** The block whose tag is [tg] is held by a valid line of set [set]. *)
Definition resident (c : cache_t) (set : nat) (tg : Z) : Prop :=
  ∃ j l, line_at c set j = Some l ∧ hits_tag tg l.

(** ** Occupancy *)

Definition total {A : Type} (w : A → Z) (l : list A) : Z :=
  foldr (λ x n, w x + n) 0 l.

Definition line_weight (l : cache_line_t) : Z :=
  if Ascii.eqb (valid l) "1"%char then 1 else 0.

(** The number of valid lines of the cache. *)
Definition valid_lines (c : cache_t) : Z := total (total line_weight) c.

(** ** The layout of a set *)

(** Free lines are as [init_cache] left them, and no valid line comes after
    a free one. *)
Definition tidy (c : cache_t) : Prop :=
  (∀ i j l, line_at c i j = Some l → is_free l → l = empty_line)
  ∧ (∀ i j j' l l',
       line_at c i j = Some l → line_at c i j' = Some l' →
       (j < j')%nat → is_valid l' → is_valid l).

(** ** Working sets *)

(** The tags of the addresses of [l] that fall in set [set], and how many
    different ones there are. *)
Definition tags_in (g : config) (set : Z) (l : list Z) : list Z :=
  tag_of g <$> filter (λ a, set_of g a = set) l.

Definition distinct_tags (g : config) (set : Z) (l : list Z) : Z :=
  Z.of_nat (length (remove_dups (tags_in g set l))).

(** The outcomes of a cache that never has to evict: a call hits when its
    block is among the blocks [seen] so far and fills a line otherwise. *)
Fixpoint cold_outcomes (g : config) (seen : list Z) (l : list Z)
    : list outcome :=
  match l with
  | [] => []
  | a :: l' =>
      (if bool_decide (block_of g a ∈ seen) then Hit else MissFill)
      :: cold_outcomes g (block_of g a :: seen) l'
  end.

(** ** Traces of loads *)

(** The trace made of one Load record per address. *)
Definition loads (l : list Z) : list trace_line :=
  (λ a, {| op := "L"%char; addr := a |}) <$> l.

(** ** main *)

(** The globals [main] sets from the command line. *)
Record options : Type := mk_options {
  opt_b : Z;
  opt_s : Z;
  opt_E : Z;
  trace_file : option String.string;
  verbosity : Z
}.

Definition no_options : options :=
  {| opt_b := 0; opt_s := 0; opt_E := 0; trace_file := None; verbosity := 0 |}.

Definition config_of (o : options) : config :=
  {| b := opt_b o; s := opt_s o; E := opt_E o |}.

(** How a piece of [main] ends: it returns, it calls [exit], or it leaves
    the behaviour this model defines (an access outside the arrays). *)
Inductive ending (A : Type) : Type :=
  | Returns (a : A)
  | Exits (status : Z)
  | Faults.
Arguments Returns {A} a.
Arguments Exits {A} status.
Arguments Faults {A}.

(** Sequencing: what follows a call of [exit] is not run. *)
Definition and_then {A B : Type} (m : ending A) (k : A → ending B)
    : ending B :=
  match m with
  | Returns a => k a
  | Exits c => Exits c
  | Faults => Faults
  end.

(** [print_usage] prints the help text and ends with [exit(0)] (line 292). *)
Definition print_usage : ending unit := Exits 0.

(** [sizeof(cache_set_t)], a pointer, and [sizeof(cache_line_t)], a [char],
    an [unsigned long long] and an [int] with their padding, on x86-64. *)
Definition sizeof_set : Z := 8.
Definition sizeof_line : Z := 24.

(** [PTRDIFF_MAX]: no object is larger, and [malloc] answers a larger
    request with [NULL]. *)
Definition PTRDIFF_MAX : Z := 2 ^ 63 - 1.

(** [S] after [S = pow(2, s)]: [2^s] when it fits an [int]; a larger power
    is out of the range of the conversion, which gives [INT_MIN] on
    x86-64. *)
Definition sets_int (g : config) : Z :=
  if num_sets g <=? INT_MAX then num_sets g else INT_MIN.

Section Main.
(** The library calls: [atoi], which returns an [int]; the reading of the
    trace file by [fopen], [fgets] and [sscanf] ([None]: the file cannot be
    opened); and [malloc], as the answers of the heap: [malloc n size] tells
    whether the [n]-th request of the program, of [size] bytes, is
    granted. *)
Variable atoi : String.string → Z.
Variable read_trace : String.string → option (list trace_line).
Variable malloc : nat → Z → bool.

(** A request is answered with a block or with [NULL]. *)
Definition granted (n : nat) (size : Z) : bool :=
  (size <=? PTRDIFF_MAX) && malloc n size.

(** The requests of [init_cache] (lines 86-98): one for the array of [S]
    sets, then one per set for its [E] lines, the sizes computed in
    [size_t].  The first request answered with [NULL] ends the program with
    [exit(1)]. *)
Definition allocate (g : config) : ending unit :=
  if granted 0 (u64 (sizeof_set * sets_int g)) then
    if forallb (λ set, granted (S set) (u64 (sizeof_line * E g)))
         (seq 0 (Z.to_nat (sets_int g)))
    then Returns tt
    else Exits 1
  else Exits 1.

(** The body of the [switch] for the option character [c] that [getopt]
    returned, with its argument [optarg]. *)
Definition handle_option (c : ascii) (optarg : String.string)
    (o : options) : ending options :=
  if Ascii.eqb c "b"%char then
    Returns {| opt_b := atoi optarg; opt_s := opt_s o; opt_E := opt_E o;
               trace_file := trace_file o; verbosity := verbosity o |}
  else if Ascii.eqb c "E"%char then
    Returns {| opt_b := opt_b o; opt_s := opt_s o; opt_E := atoi optarg;
               trace_file := trace_file o; verbosity := verbosity o |}
  else if Ascii.eqb c "h"%char then
    and_then print_usage (λ _, Exits 0)
  else if Ascii.eqb c "s"%char then
    Returns {| opt_b := opt_b o; opt_s := atoi optarg; opt_E := opt_E o;
               trace_file := trace_file o; verbosity := verbosity o |}
  else if Ascii.eqb c "t"%char then
    Returns {| opt_b := opt_b o; opt_s := opt_s o; opt_E := opt_E o;
               trace_file := Some optarg; verbosity := verbosity o |}
  else if Ascii.eqb c "v"%char then
    Returns {| opt_b := opt_b o; opt_s := opt_s o; opt_E := opt_E o;
               trace_file := trace_file o; verbosity := 1 |}
  else and_then print_usage (λ _, Exits 1).

(** The [while] loop over the values [getopt] returns before [-1]. *)
Fixpoint getopt_loop (opts : list (ascii * String.string)) (o : options)
    : ending options :=
  match opts with
  | [] => Returns o
  | (c, optarg) :: opts' =>
      and_then (handle_option c optarg o) (getopt_loop opts')
  end.

(** The test [s == 0 || E == 0 || b == 0 || trace_file == NULL]. *)
Definition missing_argument (o : options) : bool :=
  (opt_s o =? 0) || (opt_E o =? 0) || (opt_b o =? 0)
  || (if trace_file o is Some _ then false else true).

(** [main] after the loop: [init_cache], which allocates the arrays and
    then sets the lines, [replay_trace], which ends the program with
    [exit(1)] when the file cannot be opened, [free_cache] and
    [print_summary].  [free_cache] releases the arrays and leaves the
    counters; on return the three numbers are those passed to
    [print_summary]. *)
Definition main_body (o : options) : ending (Z * Z * Z) :=
  if missing_argument o then and_then print_usage (λ _, Exits 1)
  else
    and_then (allocate (config_of o)) (λ _,
      match init_cache (config_of o) with
      | None => Faults
      | Some st0 =>
          match trace_file o ≫= read_trace with
          | None => Exits 1
          | Some tr =>
              match replay_trace (config_of o) tr st0 with
              | None => Faults
              | Some (_, st) =>
                  Returns (hit_cnt st, miss_cnt st, evict_cnt st)
              end
          end
      end).

Definition main (opts : list (ascii * String.string))
    : ending (Z * Z * Z) :=
  and_then (getopt_loop opts no_options) main_body.
End Main.

(** The option characters the [switch] has a case for, [h] apart. *)
Definition known_option (c : ascii) : bool :=
  Ascii.eqb c "b"%char || Ascii.eqb c "E"%char || Ascii.eqb c "s"%char
  || Ascii.eqb c "t"%char || Ascii.eqb c "v"%char.

(** The command line is misused: [getopt] returned [h] or a character
    without a case, or the loop ended with an argument missing. *)
Definition usage_error (atoi : String.string → Z)
    (opts : list (ascii * String.string)) : Prop :=
  (∃ c optarg, (c, optarg) ∈ opts ∧ known_option c = false)
  ∨ (∃ o, getopt_loop atoi opts no_options = Returns o
          ∧ missing_argument o = true).

(** The command line is complete and a request of [init_cache] is answered
    with [NULL]: the one for the sets, or the one for the lines of a set. *)
Definition out_of_memory (atoi : String.string → Z)
    (malloc : nat → Z → bool)
    (opts : list (ascii * String.string)) : Prop :=
  ∃ o, getopt_loop atoi opts no_options = Returns o
       ∧ missing_argument o = false
       ∧ (granted malloc 0 (u64 (sizeof_set * sets_int (config_of o)))
          = false
          ∨ ∃ set, (set < Z.to_nat (sets_int (config_of o)))%nat
                   ∧ granted malloc (S set)
                       (u64 (sizeof_line * E (config_of o))) = false).

(** The command line is complete, the cache was built, and the trace file
    cannot be opened. *)
Definition unreadable (atoi : String.string → Z)
    (read_trace : String.string → option (list trace_line))
    (malloc : nat → Z → bool)
    (opts : list (ascii * String.string)) : Prop :=
  ∃ o tf, getopt_loop atoi opts no_options = Returns o
          ∧ missing_argument o = false
          ∧ allocate malloc (config_of o) = Returns tt
          ∧ trace_file o = Some tf ∧ read_trace tf = None.

(** The geometry cannot be allocated whatever the heap: [2^s] is beyond
    [int], or there is at least one set and [E] is negative, so that the
    size of the request exceeds [PTRDIFF_MAX]. *)
Definition too_large (g : config) : Prop :=
  INT_MAX < num_sets g ∨ (1 <= num_sets g ∧ INT_MIN <= E g < 0).



Definition read_trace111 (f : String.string) : option (list trace_line) :=
  Some trace111.

Definition malloc_yes (n : nat) (size : Z) : bool := true.

(** The command line [-s 1 -E -1 -b 1 -t f], with an [atoi] that reads an
    argument that starts with a minus sign as -1 and any other as 1. *)
Definition opts_neg : list (ascii * String.string) :=
  [ ("s"%char, String.String "1"%char String.EmptyString);
    ("E"%char,
     String.String "-"%char (String.String "1"%char String.EmptyString));
    ("b"%char, String.String "1"%char String.EmptyString);
    ("t"%char, String.String "f"%char String.EmptyString) ].

Definition atoi_sign (x : String.string) : Z :=
  match x with
  | String.String c _ => if Ascii.eqb c "-"%char then -1 else 1
  | String.EmptyString => 1
  end.

(** ** The LRU list *)

(** The textbook LRU set: a list of at most [E] tags, the most recently
    used first.  A tag in the list is a hit and moves to the front; any
    other tag is put in front, and takes the place of the last one when the
    list is full. *)
Definition lru_touch (E : nat) (t : Z) (stack : list Z)
    : outcome * list Z :=
  if bool_decide (t ∈ stack) then (Hit, t :: filter (λ x, x ≠ t) stack)
  else if (length stack <? E)%nat then (MissFill, t :: stack)
  else (MissEvict, t :: List.removelast stack).

(** One list per set. *)
Definition lru_access (g : config) (a : Z) (m : nat → list Z)
    : outcome * (nat → list Z) :=
  let set := Z.to_nat (set_of g a) in
  let '(o, stack) := lru_touch (Z.to_nat (E g)) (tag_of g a) (m set) in
  (o, λ i, if decide (i = set) then stack else m i).

Fixpoint lru_run (g : config) (l : list Z) (m : nat → list Z)
    : list outcome * (nat → list Z) :=
  match l with
  | [] => ([], m)
  | a :: l' =>
      let '(o, m1) := lru_access g a m in
      let '(os, m2) := lru_run g l' m1 in
      (o :: os, m2)
  end.

Definition lru_init : nat → list Z := λ _, [].

(** [t] comes before [t'] in the list. *)
Fixpoint before (stack : list Z) (t t' : Z) : Prop :=
  match stack with
  | [] => False
  | x :: stack' => (x = t ∧ t' ∈ stack') ∨ before stack' t t'
  end.

(** Set [i] of the cache holds the list [stack]: the tags of its valid
    lines are those of the list, each once, and a tag that comes earlier in
    the list sits in a line with a larger stamp. *)
Record set_models (c : cache_t) (i : nat) (stack : list Z) : Prop :=
  mk_set_models {
    sm_in : ∀ j l, line_at c i j = Some l → is_valid l → tag l ∈ stack;
    sm_line : ∀ t, t ∈ stack → resident c i t;
    sm_nodup : NoDup stack;
    sm_order : ∀ t t' j j' l l',
      before stack t t' →
      line_at c i j = Some l → line_at c i j' = Some l' →
      hits_tag t l → hits_tag t' l' → count l' < count l
  }.

(** ** Counting outcomes *)

Definition is_evict (o : outcome) : bool :=
  match o with MissEvict => true | _ => false end.

(** How many outcomes of [os] satisfy [p]. *)
Definition count_if (p : outcome → bool) (os : list outcome) : Z :=
  total (λ o, if p o then 1 else 0) os.

(** ** Long runs *)







(** * Properties *)


(** ** The address decoder *)

Lemma mask64 n : 0 <= n < 64 → sub64 (shl64 1 n) 1 = Z.ones n.
Proof.
  intros Hn. unfold sub64, shl64, u64.
  rewrite Z.shiftl_1_l, Z.ones_equiv.
  assert (0 < 2 ^ n < 2 ^ 64).
  { split; [apply Z.pow_pos_nonneg; lia|apply Z.pow_lt_mono_r; lia]. }
  rewrite (Z.mod_small (2 ^ n)) by lia.
  rewrite Z.mod_small by lia. lia.
Qed.

Lemma shiftr_bound a k :
  is_addr a → 0 <= k <= 64 → 0 <= Z.shiftr a k < 2 ^ (64 - k).
Proof.
  intros [Ha1 Ha2] Hk. rewrite Z.shiftr_div_pow2 by lia. split.
  - apply Z.div_pos; [lia|]. apply Z.pow_pos_nonneg; lia.
  - apply Z.div_lt_upper_bound; [apply Z.pow_pos_nonneg; lia|].
    rewrite <- Z.pow_add_r by lia. replace (k + (64 - k)) with 64 by lia. lia.
Qed.

Lemma set_of_eq g a :
  valid_fields g → set_of g a = Z.shiftr a (b g) mod 2 ^ s g.
Proof.
  intros (Hb & Hs & Hbs). unfold set_of, sBitMask, shr64.
  rewrite mask64 by lia. apply Z.land_ones. lia.
Qed.

Lemma tag_of_eq g a :
  valid_fields g → is_addr a → tag_of g a = Z.shiftr a (b g + s g).
Proof.
  intros (Hb & Hs & Hbs) Ha. unfold tag_of, tBitMask, shr64.
  rewrite mask64 by lia. rewrite Z.land_ones by lia.
  apply Z.mod_small.
  replace (64 - b g - s g) with (64 - (b g + s g)) by lia.
  apply shiftr_bound; [done|lia].
Qed.

Lemma set_of_bound g a : valid_fields g → 0 <= set_of g a < num_sets g.
Proof.
  intros Hg. rewrite set_of_eq by done. unfold num_sets.
  destruct Hg as (Hb & Hs & Hbs).
  apply Z.mod_pos_bound. apply Z.pow_pos_nonneg; lia.
Qed.

Lemma tag_of_bound g a :
  valid_fields g → is_addr a → 0 <= tag_of g a < 2 ^ (64 - b g - s g).
Proof.
  intros Hg Ha. rewrite tag_of_eq by done.
  destruct Hg as (Hb & Hs & Hbs).
  replace (64 - b g - s g) with (64 - (b g + s g)) by lia.
  apply shiftr_bound; [done|lia].
Qed.

Lemma shl64_small x n k :
  0 <= n → 0 <= k → n + k <= 64 → 0 <= x < 2 ^ k → shl64 x n = Z.shiftl x n.
Proof.
  intros Hn Hk Hnk [Hx1 Hx2]. unfold shl64, u64. apply Z.mod_small.
  rewrite Z.shiftl_mul_pow2 by lia.
  assert (0 < 2 ^ n) by (apply Z.pow_pos_nonneg; lia).
  split; [nia|].
  assert (2 ^ k * 2 ^ n <= 2 ^ 64).
  { rewrite <- Z.pow_add_r by lia. apply Z.pow_le_mono_r; lia. }
  nia.
Qed.

(** C4. The three fields produced by the decoder, put back in place with the
    64-bit shifts and ors of C, give the address again, for every 64-bit
    address and every geometry with positive [b] and [s] and [b + s < 64]. *)
Theorem decode_recombine (g : config) (a : Z) :
  valid_fields g → is_addr a → recombine g a = a.
Proof.
  intros Hg Ha. unfold recombine.
  pose proof (tag_of_bound g a Hg Ha) as Ht.
  pose proof (set_of_bound g a Hg) as Hs'. unfold num_sets in Hs'.
  destruct Hg as (Hb & Hs & Hbs).
  rewrite (shl64_small _ _ (64 - b g - s g)) by lia.
  rewrite (shl64_small _ _ (s g)) by lia.
  rewrite mask64 by lia.
  rewrite tag_of_eq, set_of_eq by (done || (repeat split; lia)).
  rewrite <- Z.land_ones by lia.
  apply Z.bits_inj'. intros n Hn.
  rewrite !Z.lor_spec, !Z.shiftl_spec, !Z.land_spec by lia.
  destruct (Z.lt_ge_cases n (b g)) as [Hlt|Hge].
  - rewrite !(Z.testbit_neg_r _ (n - _)) by lia.
    rewrite Z.ones_spec_low by lia. simpl. by rewrite andb_true_r.
  - rewrite (Z.ones_spec_high (b g)) by lia. rewrite andb_false_r, orb_false_r.
    rewrite (Z.shiftr_spec _ (b g)) by lia.
    replace (n - b g + b g) with n by lia.
    destruct (Z.lt_ge_cases n (b g + s g)) as [Hlt'|Hge'].
    + rewrite Z.testbit_neg_r by lia. rewrite Z.ones_spec_low by lia.
      simpl. by rewrite andb_true_r.
    + rewrite Z.shiftr_spec by lia.
      replace (n - (b g + s g) + (b g + s g)) with n by lia.
      rewrite Z.ones_spec_high by lia. by rewrite andb_false_r, orb_false_r.
Qed.

(** ** Machine arithmetic *)

Lemma int_incr_max : int_incr INT_MAX = INT_MIN.
Proof. reflexivity. Qed.

Lemma int_incr_small z : INT_MIN <= z < INT_MAX → int_incr z = z + 1.
Proof.
  unfold int_incr, int_wrap, INT_MIN, INT_MAX. intros Hz.
  rewrite Z.mod_small by lia. lia.
Qed.

Lemma is_hit_true tg l : is_hit tg l = true ↔ hits_tag tg l.
Proof.
  unfold is_hit, hits_tag, is_valid.
  rewrite andb_true_iff, Z.eqb_eq, Ascii.eqb_eq. tauto.
Qed.

Lemma is_hit_false tg l : is_hit tg l = false ↔ ¬ hits_tag tg l.
Proof. rewrite <- is_hit_true. destruct (is_hit tg l); naive_solver. Qed.

(** ** Reading and writing lines *)

Lemma line_at_set c set cs line :
  c !! set = Some cs → line_at c set line = cs !! line.
Proof. intros H. unfold line_at. by rewrite H. Qed.

Lemma line_at_Some c set line l :
  line_at c set line = Some l ↔ ∃ cs, c !! set = Some cs ∧ cs !! line = Some l.
Proof.
  unfold line_at. destruct (c !! set) as [cs|]; simpl.
  - split; [by eauto|]. by intros (cs' & [= <-] & H).
  - split; [done|]. by intros (cs' & [=] & _).
Qed.

Lemma line_at_write_eq c set line f :
  line_at (write_line c set line f) set line = f <$> line_at c set line.
Proof.
  unfold line_at, write_line. rewrite list_lookup_alter_eq.
  destruct (c !! set) as [cs|]; simpl; [|done].
  apply list_lookup_alter_eq.
Qed.

Lemma line_at_write_ne c set line f i j :
  (i, j) ≠ (set, line) →
  line_at (write_line c set line f) i j = line_at c i j.
Proof.
  intros Hne. unfold line_at, write_line.
  destruct (decide (set = i)) as [->|Hi].
  - rewrite list_lookup_alter_eq.
    destruct (c !! i) as [cs|]; simpl; [|done].
    apply list_lookup_alter_ne. congruence.
  - by rewrite list_lookup_alter_ne.
Qed.

Lemma write_line_lookup c set line f cs :
  c !! set = Some cs →
  write_line c set line f !! set = Some (alter f line cs).
Proof. intros H. unfold write_line. by rewrite list_lookup_alter_eq, H. Qed.

Lemma write_line_shape g st c' set line f :
  shape_ok g st → c' = write_line (cache st) set line f →
  ∀ h m e k, shape_ok g (mk_state c' h m e k).
Proof.
  intros [H1 H2] -> h m e k. split; simpl.
  - unfold write_line. by rewrite length_alter.
  - intros i cs. unfold write_line. rewrite list_lookup_alter.
    case_decide; [|by apply H2]. subst.
    destruct (cache st !! i) as [cs0|] eqn:Hcs; simpl; [|done].
    intros [= <-]. rewrite length_alter. eauto.
Qed.

(** ** The two loops *)

Lemma find_hit_spec c set cs tg :
  c !! set = Some cs →
  ∀ n line, (line + n <= length cs)%nat →
  ∃ r, find_hit c set tg line n = Some r ∧
    match r with
    | Some i =>
        (line <= i < line + n)%nat
        ∧ (∃ l, cs !! i = Some l ∧ hits_tag tg l)
        ∧ ∀ j l, (line <= j < i)%nat → cs !! j = Some l → ¬ hits_tag tg l
    | None =>
        ∀ j l, (line <= j < line + n)%nat → cs !! j = Some l → ¬ hits_tag tg l
    end.
Proof.
  intros Hcs. induction n as [|n IH]; intros line Hlen; simpl.
  - eexists; split; [done|]. simpl. intros; lia.
  - rewrite (line_at_set _ _ _ _ Hcs).
    destruct (lookup_lt_is_Some_2 cs line) as [l Hl]; [lia|].
    rewrite Hl; simpl. destruct (is_hit tg l) eqn:Hh.
    + eexists; split; [done|]. apply is_hit_true in Hh. simpl.
      split; [lia|]. split; [eauto|]. intros; lia.
    + apply is_hit_false in Hh.
      destruct (IH (S line)) as (r & -> & Hr); [lia|].
      eexists; split; [done|]. destruct r as [i|].
      * destruct Hr as (Hi & Hl' & Hlow). split; [lia|]. split; [done|].
        intros j l' Hj Hjl. destruct (decide (j = line)) as [->|].
        -- congruence.
        -- apply (Hlow j); [lia|done].
      * intros j l' Hj Hjl. destruct (decide (j = line)) as [->|].
        -- congruence.
        -- apply (Hr j); [lia|done].
Qed.

Lemma find_victim_spec c set cs :
  c !! set = Some cs →
  ∀ n line ev mc, (line + n <= length cs)%nat →
  victim_acc cs line ev mc →
  ∃ fl ev', find_victim c set line n ev mc = Some (fl, ev') ∧
    match fl with
    | Some f => (f < line + n)%nat ∧ first_at is_free cs f
    | None => ∃ mc', victim_acc cs (line + n) ev' mc'
    end.
Proof.
  intros Hcs. induction n as [|n IH]; intros line ev mc Hlen Hacc; simpl.
  - do 2 eexists; split; [done|]. simpl. exists mc. by rewrite Nat.add_0_r.
  - rewrite (line_at_set _ _ _ _ Hcs).
    destruct (lookup_lt_is_Some_2 cs line) as [l Hl]; [lia|].
    rewrite Hl; simpl. destruct (Ascii.eqb_spec (valid l) "0"%char) as [Hv|Hv].
    + do 2 eexists; split; [done|]. simpl. split; [lia|]. split; [by eauto|].
      intros j l' Hj Hjl. by apply (proj1 Hacc j).
    + destruct Hacc as [Hlow Hev].
      assert (Hstep : ∃ ev1 mc1,
        (if count l <? mc
         then find_victim c set (S line) n (Some line) (count l)
         else find_victim c set (S line) n ev mc)
        = find_victim c set (S line) n ev1 mc1
        ∧ victim_acc cs (S line) ev1 mc1).
      { destruct (Z.ltb_spec (count l) mc) as [Hlt|Hge].
        - exists (Some line), (count l). split; [done|]. split.
          + intros j l' Hj Hjl. destruct (decide (j = line)) as [->|].
            * replace l' with l by congruence. split; [done|lia].
            * destruct (Hlow j l') as [? ?]; [lia|done|]. split; [done|lia].
          + split; [lia|]. split.
            { destruct ev as [e|]; [destruct Hev as (_ & ? & _)|]; lia. }
            split; [by eauto|].
            intros j l' Hj Hjl. destruct (Hlow j l'); [lia|done|lia].
        - exists ev, mc. split; [done|]. split.
          + intros j l' Hj Hjl. destruct (decide (j = line)) as [->|].
            * replace l' with l by congruence. split; [done|lia].
            * apply (Hlow j); [lia|done].
          + destruct ev as [e|]; [|done].
            destruct Hev as (? & ? & ? & ?). repeat split; [lia|done..]. }
      destruct Hstep as (ev1 & mc1 & -> & Hacc1).
      destruct (IH (S line) ev1 mc1) as (fl & ev' & -> & Hr); [lia|done|].
      do 2 eexists; split; [done|]. destruct fl as [f|].
      * destruct Hr; split; [lia|done].
      * destruct Hr as [mc' Hr]. exists mc'.
        by replace (line + S n)%nat with (S line + n)%nat by lia.
Qed.

(** ** One call of access_data *)

Lemma shape_set g st a :
  shape_ok g st → valid_fields g →
  ∃ cs, cache st !! Z.to_nat (set_of g a) = Some cs
        ∧ length cs = Z.to_nat (E g).
Proof.
  intros [H1 H2] Hg. pose proof (set_of_bound g a Hg) as Hb.
  destruct (lookup_lt_is_Some_2 (cache st) (Z.to_nat (set_of g a)))
    as [cs Hcs]; [lia|].
  exists cs. split; [done|]. by apply (H2 _ _ Hcs).
Qed.

(** The four paths of [access_data] on a cache of the right shape. *)
Lemma access_data_paths g a st :
  shape_ok g st → valid_fields g →
  let set := Z.to_nat (set_of g a) in
  let tg := tag_of g a in
  ∃ cs, cache st !! set = Some cs ∧ length cs = Z.to_nat (E g) ∧
  ( (∃ i, first_at (hits_tag tg) cs i
          ∧ access_data g a st
            = Some (Hit, bump Hit st
                (write_line (cache st) set i (set_count (counter st)))))
  ∨ (absent tg cs ∧
     ( (∃ i, first_at is_free cs i
             ∧ access_data g a st
               = Some (MissFill, bump MissFill st
                   (write_line (cache st) set i (fill_line tg (counter st)))))
     ∨ (∃ e mc, victim_acc cs (length cs) (Some e) mc
             ∧ access_data g a st
               = Some (MissEvict, bump MissEvict st
                   (write_line (cache st) set e (fill_line tg (counter st)))))
     ∨ (victim_acc cs (length cs) None INT_MAX
        ∧ access_data g a st
          = Some (MissNoLine, bump MissNoLine st (cache st)))))).
Proof.
  intros Hsh Hg set tg. destruct (shape_set g st a Hsh Hg) as (cs & Hcs & Hlen).
  fold set in Hcs. exists cs. split; [done|]. split; [done|].
  unfold access_data. fold set tg.
  destruct (find_hit_spec _ _ _ tg Hcs (Z.to_nat (E g)) 0%nat)
    as (r & -> & Hr); [lia|]. simpl.
  destruct r as [i|].
  - left. exists i. split; [|done].
    destruct Hr as (_ & Hi & Hlow). split; [done|].
    intros j l Hj. apply Hlow. lia.
  - right. split.
    { intros j l Hjl. apply (Hr j); [|done].
      apply lookup_lt_Some in Hjl. lia. }
    destruct (find_victim_spec _ _ _ Hcs (Z.to_nat (E g)) 0%nat None INT_MAX)
      as (fl & ev & -> & Hv); [lia| |].
    { split; [intros; lia|done]. }
    simpl. destruct fl as [f|].
    + left. exists f. split; [by destruct Hv|done].
    + destruct Hv as [mc Hv]. simpl in Hv. rewrite <- Hlen in Hv.
      destruct ev as [e|].
      * right; left. by exists e, mc.
      * right; right. split; [|done].
        replace INT_MAX with mc; [done|]. by destruct Hv as [_ ->].
Qed.

Lemma line_at_write c set line f i j :
  line_at (write_line c set line f) i j
  = if decide ((i, j) = (set, line)) then f <$> line_at c set line
    else line_at c i j.
Proof.
  case_decide as H.
  - injection H as -> ->. apply line_at_write_eq.
  - by apply line_at_write_ne.
Qed.

(** Writing a valid line stamped with the current counter keeps the
    invariant, provided its tag is not held by another line of the set. *)
Lemma Inv_write g st set line f l0 h m e :
  Inv g st → counter st < INT_MAX →
  line_at (cache st) set line = Some l0 →
  is_valid (f l0) → count (f l0) = counter st →
  (∀ j l, j ≠ line → line_at (cache st) set j = Some l →
          is_valid l → tag l ≠ tag (f l0)) →
  h + m = counter st ∧ 0 <= h ∧ 0 <= e <= m →
  Inv g (mk_state (write_line (cache st) set line f) h m e (counter st + 1)).
Proof.
  intros HI Hc Hl0 Hv Hcnt Htag Hst.
  assert (Hnew : ∀ i j l,
    line_at (write_line (cache st) set line f) i j = Some l →
    ((i, j) = (set, line) ∧ l = f l0)
    ∨ ((i, j) ≠ (set, line) ∧ line_at (cache st) i j = Some l)).
  { intros i j l. rewrite line_at_write. case_decide as Hd.
    - rewrite Hl0. simpl. intros [= <-]. by left.
    - intros ?. by right. }
  split; simpl.
  - by eapply write_line_shape; [apply (inv_shape _ _ HI)|].
  - intros i j l Hl. destruct (Hnew _ _ _ Hl) as [[_ ->]|[_ Hold]].
    + by right.
    + by apply (inv_flag _ _ HI i j).
  - intros i j l Hl Hvl. destruct (Hnew _ _ _ Hl) as [[_ ->]|[_ Hold]].
    + pose proof (inv_counter _ _ HI). lia.
    + pose proof (inv_count _ _ HI i j l Hold Hvl). lia.
  - intros i j i' j' l l' Hl Hl' Hvl Hvl' Heq.
    destruct (Hnew _ _ _ Hl) as [[H1 ->]|[H1 Hold]];
      destruct (Hnew _ _ _ Hl') as [[H2 ->]|[H2 Hold']].
    + split; congruence.
    + pose proof (inv_count _ _ HI _ _ _ Hold' Hvl'). lia.
    + pose proof (inv_count _ _ HI _ _ _ Hold Hvl). lia.
    + by apply (inv_distinct _ _ HI i j i' j' l l').
  - intros i j j' l l' Hl Hl' Hvl Hvl' Heq.
    destruct (Hnew _ _ _ Hl) as [[H1 ->]|[H1 Hold]];
      destruct (Hnew _ _ _ Hl') as [[H2 ->]|[H2 Hold']].
    + congruence.
    + injection H1 as -> ->. destruct (decide (j' = line)); [done|].
      exfalso. by apply (Htag j' l').
    + injection H2 as -> ->. destruct (decide (j = line)); [done|].
      exfalso. by apply (Htag j l).
    + by apply (inv_tags _ _ HI i j j' l l').
  - pose proof (inv_counter _ _ HI). lia.
  - lia.
Qed.

Lemma Inv_bounds g st :
  Inv g st → counter st < INT_MAX →
  int_incr (hit_cnt st) = hit_cnt st + 1
  ∧ int_incr (miss_cnt st) = miss_cnt st + 1
  ∧ int_incr (evict_cnt st) = evict_cnt st + 1
  ∧ int_incr (counter st) = counter st + 1.
Proof.
  intros HI Hc. pose proof (inv_counter _ _ HI). pose proof (inv_stats _ _ HI).
  unfold INT_MAX in *.
  repeat split; apply int_incr_small; unfold INT_MIN, INT_MAX; lia.
Qed.

(** The three paths a run can take, with the counters incremented in [Z]. *)
Lemma access_data_run g a st :
  Inv g st → valid_config g → counter st < INT_MAX →
  let set := Z.to_nat (set_of g a) in
  let tg := tag_of g a in
  ∃ cs, cache st !! set = Some cs ∧ length cs = Z.to_nat (E g) ∧
  ( (∃ i, first_at (hits_tag tg) cs i
          ∧ access_data g a st = Some (Hit, hit_state st set i))
  ∨ (absent tg cs
     ∧ ∃ i, first_at is_free cs i
            ∧ access_data g a st = Some (MissFill, fill_state st set i tg))
  ∨ (absent tg cs
     ∧ (∀ j l, cs !! j = Some l → is_valid l)
     ∧ ∃ e, strictly_oldest cs e
            ∧ access_data g a st = Some (MissEvict, evict_state st set e tg))).
Proof.
  intros HI Hg Hc set tg.
  destruct (access_data_paths g a st (inv_shape _ _ HI) (proj1 Hg))
    as (cs & Hcs & Hlen & Hp).
  fold set tg in Hcs, Hp. exists cs. split; [done|]. split; [done|].
  destruct (Inv_bounds g st HI Hc) as (Hh & Hm & He & Hk).
  assert (Hvalid : ∀ j l, (j < length cs)%nat → cs !! j = Some l →
                          ¬ is_free l → is_valid l).
  { intros j l _ Hjl Hnf.
    destruct (inv_flag _ _ HI set j l) as [?|?]; [|done..].
    by rewrite (line_at_set _ _ _ _ Hcs). }
  destruct Hp as [(i & Hi & ->)|(Habs & [(i & Hi & ->)|[(e & mc & Hv & ->)|(Hv & _)]])].
  - left. exists i. split; [done|]. unfold bump, hit_state. simpl.
    by rewrite Hh, Hk.
  - right; left. split; [done|]. exists i. split; [done|].
    unfold bump, fill_state. simpl. by rewrite Hm, Hk.
  - right; right. split; [done|].
    destruct Hv as (Hlow & He1 & Hmc & (le & Hle & Hcnt) & _).
    assert (Hall : ∀ j l, cs !! j = Some l → is_valid l).
    { intros j l Hjl. pose proof (lookup_lt_Some _ _ _ Hjl).
      apply (Hvalid j); [done..|]. by apply (Hlow j). }
    split; [done|]. exists e. split.
    + exists le. split; [done|]. intros j l Hne Hjl.
      pose proof (lookup_lt_Some _ _ _ Hjl) as Hj.
      destruct (Hlow j l Hj Hjl) as [_ Hge].
      destruct (decide (count le = count l)) as [Heq|]; [|lia].
      exfalso. apply Hne.
      destruct (inv_distinct _ _ HI set e set j le l) as [_ ?];
        rewrite ?(line_at_set _ _ _ _ Hcs); eauto.
    + unfold bump, evict_state. simpl. by rewrite Hm, He, Hk.
  - exfalso. destruct Hg as [_ HE].
    destruct (lookup_lt_is_Some_2 cs 0%nat) as [l Hl]; [lia|].
    destruct Hv as [Hlow _]. destruct (Hlow 0%nat l) as [Hnf Hge]; [lia|done|].
    assert (is_valid l) as Hvl by (apply (Hvalid 0%nat); [lia|done..]).
    pose proof (inv_count _ _ HI set 0%nat l) as Hcl.
    rewrite (line_at_set _ _ _ _ Hcs) in Hcl. specialize (Hcl Hl Hvl).
    pose proof (inv_counter _ _ HI). lia.
Qed.

(** ** The invariant holds along every run *)

Lemma Inv_step g a st o st' :
  Inv g st → valid_config g → counter st < INT_MAX →
  access_data g a st = Some (o, st') → Inv g st'.
Proof.
  intros HI Hg Hc Hacc.
  destruct (access_data_run g a st HI Hg Hc) as (cs & Hcs & Hlen & Hp).
  pose proof (inv_stats _ _ HI) as Hst.
  assert (Habsent : ∀ i l0 n, absent (tag_of g a) cs → ∀ j l, j ≠ i →
    line_at (cache st) (Z.to_nat (set_of g a)) j = Some l → is_valid l →
    tag l ≠ tag (fill_line (tag_of g a) n l0)).
  { intros i l0 n Habs j l _ Hjl Hvl Heq.
    rewrite (line_at_set _ _ _ _ Hcs) in Hjl. by apply (Habs j l). }
  destruct Hp as [(i & [(l0 & Hl0 & Hv & Ht) _] & Heq)
                 |[(Habs & i & [(l0 & Hl0 & _) _] & Heq)
                  |(Habs & _ & e & (l0 & Hl0 & _) & Heq)]];
    rewrite Heq in Hacc; injection Hacc as <- <-.
  - apply (Inv_write g st _ _ _ l0); try done.
    + by rewrite (line_at_set _ _ _ _ Hcs).
    + intros j l Hne Hjl Hvl Heq'. apply Hne.
      apply (inv_tags _ _ HI (Z.to_nat (set_of g a)) j i l l0); try done.
      by rewrite (line_at_set _ _ _ _ Hcs).
    + lia.
  - apply (Inv_write g st _ _ _ l0); try done.
    + by rewrite (line_at_set _ _ _ _ Hcs).
    + by apply Habsent.
    + lia.
  - apply (Inv_write g st _ _ _ l0); try done.
    + by rewrite (line_at_set _ _ _ _ Hcs).
    + by apply Habsent.
    + lia.
Qed.

Lemma init_cache_Some g st0 :
  init_cache g = Some st0 →
  num_sets g <= INT_MAX
  ∧ st0 = {| cache := replicate (Z.to_nat (num_sets g))
                        (replicate (Z.to_nat (E g)) empty_line);
             hit_cnt := 0; miss_cnt := 0; evict_cnt := 0; counter := 1 |}.
Proof.
  unfold init_cache.
  destruct (Z.leb_spec (num_sets g) INT_MAX); simpl; [|done].
  by intros [= <-].
Qed.

Lemma init_line_at g st0 i j l :
  init_cache g = Some st0 → line_at (cache st0) i j = Some l → l = empty_line.
Proof.
  intros (_ & ->)%init_cache_Some. simpl.
  intros (cs & Hcs & Hl)%line_at_Some.
  apply lookup_replicate in Hcs as [-> _].
  by apply lookup_replicate in Hl as [-> _].
Qed.

Lemma Inv_init g st0 : init_cache g = Some st0 → Inv g st0.
Proof.
  intros Hinit.
  pose proof (init_line_at g st0) as Hline.
  destruct (init_cache_Some _ _ Hinit) as (Hn & Hst0).
  split.
  - subst st0. split; simpl.
    + by rewrite length_replicate.
    + intros i cs [-> _]%lookup_replicate. by rewrite length_replicate.
  - intros i j l Hl. rewrite (Hline i j l Hinit Hl). by left.
  - intros i j l Hl. by rewrite (Hline i j l Hinit Hl).
  - intros i j i' j' l l' Hl _. by rewrite (Hline i j l Hinit Hl).
  - intros i j j' l l' Hl _. by rewrite (Hline i j l Hinit Hl).
  - subst st0. simpl. unfold INT_MAX. lia.
  - subst st0. simpl. lia.
Qed.

Lemma reachable_Inv g st : valid_config g → reachable g st → Inv g st.
Proof.
  intros Hg. induction 1 as [st0 H0|st a o st' _ IH _ Hc Hacc].
  - by apply Inv_init.
  - by apply (Inv_step g a st o st').
Qed.

(** ** Hits and misses in a run *)

Lemma first_at_unique P cs i j : first_at P cs i → first_at P cs j → i = j.
Proof.
  intros [(li & Hli & HPi) Hi] [(lj & Hlj & HPj) Hj].
  destruct (Nat.lt_trichotomy i j) as [Hlt|[->|Hlt]]; [|done|].
  - by destruct (Hj i li).
  - by destruct (Hi j lj).
Qed.

Lemma free_not_valid l : is_free l → ¬ is_valid l.
Proof. unfold is_free, is_valid. intros -> [=]. Qed.

(** A line of the set that holds the tag is the one the call hits. *)
Lemma hit_run g a st cs i l :
  Inv g st → valid_config g → counter st < INT_MAX →
  cache st !! Z.to_nat (set_of g a) = Some cs →
  cs !! i = Some l → hits_tag (tag_of g a) l →
  first_at (hits_tag (tag_of g a)) cs i
  ∧ access_data g a st
    = Some (Hit, hit_state st (Z.to_nat (set_of g a)) i).
Proof.
  intros HI Hg Hc Hcs Hl [Hv Ht].
  destruct (access_data_run g a st HI Hg Hc) as (cs' & Hcs' & _ & Hp).
  replace cs' with cs in * by congruence.
  destruct Hp as [(i0 & Hf & Heq)|[(Habs & _)|(Habs & _)]].
  - pose proof Hf as [(l0 & Hl0 & Hv0 & Ht0) _].
    assert (i = i0) as ->; [|done].
    apply (inv_tags _ _ HI (Z.to_nat (set_of g a)) i i0 l l0);
      rewrite ?(line_at_set _ _ _ _ Hcs); congruence.
  - by destruct (Habs i l).
  - by destruct (Habs i l).
Qed.

(** A miss in a set with a free line fills the first free line. *)
Lemma miss_fill_run g a st cs j l :
  Inv g st → valid_config g → counter st < INT_MAX →
  cache st !! Z.to_nat (set_of g a) = Some cs →
  absent (tag_of g a) cs →
  cs !! j = Some l → is_free l →
  ∃ i, first_at is_free cs i
       ∧ access_data g a st
         = Some (MissFill,
                 fill_state st (Z.to_nat (set_of g a)) i (tag_of g a)).
Proof.
  intros HI Hg Hc Hcs Habs Hl Hfree.
  destruct (access_data_run g a st HI Hg Hc) as (cs' & Hcs' & _ & Hp).
  replace cs' with cs in * by congruence.
  destruct Hp as [(i0 & [(l0 & Hl0 & Hh) _] & _)|[(_ & i & Hi & Heq)|(_ & Hall & _)]].
  - by destruct (Habs i0 l0).
  - by exists i.
  - by destruct (free_not_valid l Hfree (Hall j l Hl)).
Qed.



Lemma line_at_hit_state st set i cs l :
  cache st !! set = Some cs → cs !! i = Some l →
  line_at (cache (hit_state st set i)) set i
  = Some {| valid := valid l; tag := tag l; count := counter st |}.
Proof.
  intros Hcs Hl. simpl. rewrite line_at_write_eq.
  by rewrite (line_at_set _ _ _ _ Hcs), Hl.
Qed.

Lemma line_at_fill st set i tg cs l c' :
  cache st !! set = Some cs → cs !! i = Some l →
  c' = write_line (cache st) set i (fill_line tg (counter st)) →
  line_at c' set i
  = Some {| valid := "1"%char; tag := tg; count := counter st |}.
Proof.
  intros Hcs Hl ->. rewrite line_at_write_eq.
  by rewrite (line_at_set _ _ _ _ Hcs), Hl.
Qed.



(** ** LRU order in a two-way set *)



(** ** Modify records *)

(** Whatever the first call did, the line it touched holds the tag, so a
    second call on the same address hits. *)
Lemma second_access_hits g a st o st1 :
  Inv g st → valid_config g → counter st + 1 < INT_MAX →
  access_data g a st = Some (o, st1) →
  o ≠ MissNoLine ∧ counter st1 = counter st + 1 ∧ Inv g st1
  ∧ ∃ i, access_data g a st1
         = Some (Hit, hit_state st1 (Z.to_nat (set_of g a)) i).
Proof.
  intros HI Hg Hc Hacc.
  assert (Inv g st1) as HI1 by (eapply Inv_step; [done|done|lia|exact Hacc]).
  destruct (access_data_run g a st HI Hg) as (cs & Hcs & _ & Hp); [lia|].
  assert (Hgo : ∀ i l f c1,
    cs !! i = Some l → hits_tag (tag_of g a) (f l) → Inv g c1 →
    cache c1 = write_line (cache st) (Z.to_nat (set_of g a)) i f →
    counter c1 = counter st + 1 →
    ∃ i, access_data g a c1
         = Some (Hit, hit_state c1 (Z.to_nat (set_of g a)) i)).
  { intros i l f c1 Hl Hh HIc Hc1 Hk. exists i.
    apply (hit_run g a c1 (alter f i cs) i (f l)); try done; [lia| |].
    - rewrite Hc1. by apply write_line_lookup.
    - by rewrite list_lookup_alter_eq, Hl. }
  destruct Hp as [(i & [(l & Hl & Hv & Ht) _] & Heq)
                 |[(_ & i & [(l & Hl & _) _] & Heq)
                  |(_ & _ & e & (l & Hl & _) & Heq)]];
    rewrite Heq in Hacc; injection Hacc as <- <-;
    (split; [done|]); (split; [done|]); (split; [done|]).
  - by eapply (Hgo i l (set_count (counter st))).
  - by eapply (Hgo i l (fill_line (tag_of g a) (counter st))).
  - by eapply (Hgo e l (fill_line (tag_of g a) (counter st))).
Qed.


(** ** Replaying a trace *)

Lemma access_all_app g l1 l2 st :
  access_all g (l1 ++ l2) st
  = '(os1, st1) ← access_all g l1 st;
    '(os2, st2) ← access_all g l2 st1;
    Some (os1 ++ os2, st2).
Proof.
  revert st. induction l1 as [|a l1 IH]; intros st; simpl.
  - by destruct (access_all g l2 st) as [[os2 st2]|].
  - destruct (access_data g a st) as [[o st1]|]; simpl; [|done].
    rewrite IH. destruct (access_all g l1 st1) as [[os1 st1']|]; simpl; [|done].
    by destruct (access_all g l2 st1') as [[os2 st2]|].
Qed.

Lemma replay_line_calls g r st :
  replay_line g r st = access_all g (calls_of r) st.
Proof.
  unfold replay_line, calls_of.
  destruct (Ascii.eqb (op r) "M"%char) eqn:HM.
  - rewrite !orb_true_r. simpl.
    destruct (access_data g (addr r) st) as [[o1 st1]|]; simpl; [|done].
    by destruct (access_data g (addr r) st1) as [[o2 st2]|].
  - rewrite orb_false_r.
    destruct (Ascii.eqb (op r) "L"%char) eqn:HL.
    + rewrite orb_true_r. simpl.
      by destruct (access_data g (addr r) st) as [[o1 st1]|].
    + rewrite orb_false_r.
      destruct (Ascii.eqb (op r) "S"%char) eqn:HS; simpl; [|done].
      by destruct (access_data g (addr r) st) as [[o1 st1]|].
Qed.

Lemma replay_trace_calls g tr st :
  replay_trace g tr st = access_all g (calls tr) st.
Proof.
  revert st. induction tr as [|r tr IH]; intros st; [done|].
  simpl. change (calls (r :: tr)) with (calls_of r ++ calls tr).
  rewrite access_all_app, replay_line_calls.
  destruct (access_all g (calls_of r) st) as [[os1 st1]|]; simpl; [|done].
  by rewrite IH.
Qed.

Lemma calls_loads l : calls (loads l) = l.
Proof.
  induction l as [|a l IH]; [done|].
  change (calls (loads (a :: l))) with (a :: calls (loads l)). by rewrite IH.
Qed.



(** A sequence of calls that fits below [INT_MAX] runs to its end, keeps the
    invariant and never lowers a counter. *)
Lemma access_all_run g l st :
  Inv g st → valid_config g →
  counter st + Z.of_nat (length l) <= INT_MAX →
  ∃ os st', access_all g l st = Some (os, st')
    ∧ Inv g st'
    ∧ length os = length l
    ∧ counter st' = counter st + Z.of_nat (length l)
    ∧ hit_cnt st <= hit_cnt st' ∧ miss_cnt st <= miss_cnt st'
    ∧ evict_cnt st <= evict_cnt st'.
Proof.
  intros HI Hg. revert st HI. induction l as [|a l IH]; intros st HI Hc.
  - exists [], st. simpl. split_and!; try done; lia.
  - simpl in Hc. simpl.
    destruct (access_data_run g a st HI Hg) as (cs & _ & _ & Hp); [lia|].
    assert (∃ o st1, access_data g a st = Some (o, st1)
              ∧ counter st1 = counter st + 1
              ∧ hit_cnt st <= hit_cnt st1 ∧ miss_cnt st <= miss_cnt st1
              ∧ evict_cnt st <= evict_cnt st1)
      as (o & st1 & H1 & Hk & Hh & Hm & He).
    { destruct Hp as [(? & _ & ->)|[(_ & ? & _ & ->)|(_ & _ & ? & _ & ->)]];
        do 2 eexists; (split; [done|]); simpl; lia. }
    assert (Inv g st1) as HI1 by (eapply Inv_step; [done|done|lia|exact H1]).
    destruct (IH st1 HI1) as (os & st' & H2 & HI' & Hlen & Hk' & ? & ? & ?);
      [lia|].
    exists (o :: os), st'. rewrite H1. simpl. rewrite H2. simpl.
    split_and!; try done; lia.
Qed.


(** ** The recency counter *)

(** Every call of a run stamps exactly one line and leaves the others. *)
Lemma access_touch g a st :
  Inv g st → valid_config g → counter st < INT_MAX →
  let set := Z.to_nat (set_of g a) in
  ∃ o st' j l,
    access_data g a st = Some (o, st')
    ∧ (o = Hit ∨ o = MissFill ∨ o = MissEvict)
    ∧ counter st' = counter st + 1
    ∧ line_at (cache st') set j = Some l
    ∧ hits_tag (tag_of g a) l
    ∧ count l = counter st
    ∧ ∀ i' j', (i', j') ≠ (set, j) →
        line_at (cache st') i' j' = line_at (cache st) i' j'.
Proof.
  intros HI Hg Hc set.
  destruct (access_data_run g a st HI Hg Hc) as (cs & Hcs & _ & Hp).
  fold set in Hcs, Hp.
  destruct Hp as [(i & [(l & Hl & Hv & Ht) _] & Heq)
                 |[(_ & i & [(l & Hl & _) _] & Heq)
                  |(_ & _ & i & (l & Hl & _) & Heq)]].
  - exists Hit, (hit_state st set i), i, (set_count (counter st) l).
    split_and!; try done; [by left| |].
    + by erewrite line_at_hit_state.
    + intros i' j' Hne. by apply line_at_write_ne.
  - exists MissFill, (fill_state st set i (tag_of g a)), i,
      (fill_line (tag_of g a) (counter st) l).
    split_and!; try done; [by right; left| |].
    + by erewrite (line_at_fill st set i).
    + intros i' j' Hne. by apply line_at_write_ne.
  - exists MissEvict, (evict_state st set i (tag_of g a)), i,
      (fill_line (tag_of g a) (counter st) l).
    split_and!; try done; [by right; right| |].
    + by erewrite (line_at_fill st set i).
    + intros i' j' Hne. by apply line_at_write_ne.
Qed.


(** ** Absence of failure *)

Lemma access_data_shape g a st :
  shape_ok g st → valid_fields g →
  ∃ o st', access_data g a st = Some (o, st') ∧ shape_ok g st'.
Proof.
  intros Hsh Hg.
  destruct (access_data_paths g a st Hsh Hg) as (cs & Hcs & _ & Hp).
  destruct Hp as [(i & _ & ->)
                 |(_ & [(i & _ & ->)|[(e & mc & _ & ->)|(_ & ->)]])];
    do 2 eexists; (split; [done|]);
    try (by eapply write_line_shape; [apply Hsh|]).
  by destruct Hsh.
Qed.

(** C9. For a valid geometry the set index computed from any 64-bit address
    is below the number of sets [2^s].  On a cache of the allocated shape
    [access_data] performs no access outside the arrays and returns, leaving
    the shape as it was; in a run it returns through the hit, the fill or
    the evict path, never through the final [return]. *)
Theorem access_never_fails (g : config) (a : Z) :
  valid_config g → is_addr a →
  0 <= set_of g a < num_sets g
  ∧ (∀ st, shape_ok g st →
       (Z.to_nat (set_of g a) < length (cache st))%nat
       ∧ ∃ o st', access_data g a st = Some (o, st') ∧ shape_ok g st')
  ∧ (∀ st, reachable g st → counter st < INT_MAX →
       shape_ok g st
       ∧ ∃ o st', access_data g a st = Some (o, st')
           ∧ (o = Hit ∨ o = MissFill ∨ o = MissEvict)
           ∧ reachable g st').
Proof.
  intros Hg Ha. pose proof (set_of_bound g a (proj1 Hg)) as Hb.
  split_and!; try lia.
  - intros st Hsh. split; [|by apply access_data_shape, Hg].
    rewrite (shape_sets _ _ Hsh). lia.
  - intros st Hr Hc. pose proof (reachable_Inv g st Hg Hr) as HI.
    split; [by apply (inv_shape _ _ HI)|].
    destruct (access_touch g a st HI Hg Hc) as (o & st' & _ & _ & Hacc & Ho & _).
    exists o, st'. split_and!; try done.
    by apply (reach_step g st a o st').
Qed.

(** ** Frame *)

(** C10. A call of [access_data] changes at most one line of the cache.  On a
    hit that line keeps its flag and tag and only its [count] is written; on
    a fill or an eviction it is the selected line; every other line, in the
    target set or in another set, is as before, and no line is added or
    removed. *)
Theorem access_frame (g : config) (a : Z) (st : state) :
  valid_fields g → shape_ok g st →
  let set := Z.to_nat (set_of g a) in
  let tg := tag_of g a in
  ∃ o st' j,
    access_data g a st = Some (o, st')
    ∧ shape_ok g st'
    ∧ (∀ i' j', (i', j') ≠ (set, j) →
         line_at (cache st') i' j' = line_at (cache st) i' j')
    ∧ match o with
      | Hit =>
          ∃ l, line_at (cache st) set j = Some l
               ∧ is_valid l ∧ tag l = tg
               ∧ line_at (cache st') set j
                 = Some {| valid := valid l; tag := tag l;
                           count := counter st |}
      | MissFill | MissEvict =>
          ∃ l, line_at (cache st) set j = Some l
               ∧ line_at (cache st') set j
                 = Some {| valid := "1"%char; tag := tg;
                           count := counter st |}
      | MissNoLine => cache st' = cache st
      end.
Proof.
  intros Hg Hsh set tg.
  destruct (access_data_shape g a st Hsh Hg) as (o' & st'' & Hacc & Hsh').
  destruct (access_data_paths g a st Hsh Hg) as (cs & Hcs & _ & Hp).
  fold set tg in Hcs, Hp.
  destruct Hp as [(i & [(l & Hl & Hv & Ht) _] & Heq)
                 |(_ & [(i & [(l & Hl & _) _] & Heq)
                       |[(e & mc & (_ & _ & _ & (l & Hl & _) & _) & Heq)
                        |(_ & Heq)]])];
    rewrite Heq in Hacc; injection Hacc as <- <-.
  - exists Hit, (bump Hit st
        (write_line (cache st) set i (set_count (counter st)))), i.
    split_and!; try done.
    + intros i' j' Hne. by apply line_at_write_ne.
    + exists l. simpl. rewrite line_at_write_eq.
      by rewrite (line_at_set _ _ _ _ Hcs), Hl.
  - exists MissFill, (bump MissFill st
        (write_line (cache st) set i (fill_line tg (counter st)))), i.
    split_and!; try done.
    + intros i' j' Hne. by apply line_at_write_ne.
    + exists l. simpl. rewrite line_at_write_eq.
      by rewrite (line_at_set _ _ _ _ Hcs), Hl.
  - exists MissEvict, (bump MissEvict st
        (write_line (cache st) set e (fill_line tg (counter st)))), e.
    split_and!; try done.
    + intros i' j' Hne. by apply line_at_write_ne.
    + exists l. simpl. rewrite line_at_write_eq.
      by rewrite (line_at_set _ _ _ _ Hcs), Hl.
  - exists MissNoLine, (bump MissNoLine st (cache st)), 0%nat.
    split_and!; done.
Qed.

(** ** A concrete run *)

(** C8. With [s = 1], [E = 1], [b = 1], the addresses 0 and 8 both fall in
    set 0 with different tags, and replaying [L 0,1], [L 8,1], [L 0,1] on a
    fresh cache is a miss, a miss with eviction and a miss with eviction:
    no hit, three misses, two evictions. *)
Theorem scenario_s1_E1_b1 :
  set_of g111 0 = 0 ∧ set_of g111 8 = 0
  ∧ tag_of g111 0 ≠ tag_of g111 8
  ∧ ∃ st, run g111 trace111 = Some ([MissFill; MissEvict; MissEvict], st)
          ∧ hit_cnt st = 0 ∧ miss_cnt st = 3 ∧ evict_cnt st = 2.
Proof.
  split_and!; try done.
  eexists. split_and!; [vm_compute; reflexivity|done..].
Qed.

(** ** The theorems at concrete inputs *)

Lemma valid_g111 : valid_config g111.
Proof. unfold valid_config, valid_fields; simpl; lia. Defined.

Lemma valid_g121 : valid_config g121.
Proof. unfold valid_config, valid_fields; simpl; lia. Defined.

Lemma reachable_fresh111 : reachable g111 fresh111.
Proof. apply reach_init. reflexivity. Defined.

Lemma reachable_warm111 : reachable g111 warm111.
Proof.
  apply (reach_step g111 fresh111 0 MissFill warm111).
  - exact reachable_fresh111.
  - unfold is_addr. lia.
  - reflexivity.
  - reflexivity.
Defined.

Lemma reachable_fresh121 : reachable g121 fresh121.
Proof. apply reach_init. reflexivity. Defined.

Lemma decode_recombine_witness : recombine g111 8 = 8.
Proof.
  apply (decode_recombine g111 8).
  - unfold valid_fields; simpl; lia.
  - unfold is_addr. lia.
Defined.







Lemma access_never_fails_witness :
  0 <= set_of g111 8 < num_sets g111
  ∧ ∃ o st', access_data g111 8 warm111 = Some (o, st')
             ∧ (o = Hit ∨ o = MissFill ∨ o = MissEvict).
Proof.
  destruct (access_never_fails g111 8) as (Hb & _ & Hrun).
  - exact valid_g111.
  - unfold is_addr. lia.
  - split; [exact Hb|].
    destruct (Hrun warm111 reachable_warm111) as (_ & o & st' & Hacc & Ho & _).
    + reflexivity.
    + exists o, st'. split; [exact Hacc|exact Ho].
Defined.

Lemma shape_warm111 : shape_ok g111 warm111.
Proof.
  split.
  - reflexivity.
  - intros [|[|i]] cs; simpl; intros [= <-]; reflexivity.
Defined.

Lemma access_frame_witness :
  ∃ o st' j,
    access_data g111 8 warm111 = Some (o, st')
    ∧ ∀ i' j', (i', j') ≠ (0%nat, j) →
        line_at (cache st') i' j' = line_at (cache warm111) i' j'.
Proof.
  destruct (access_frame g111 8 warm111 (proj1 valid_g111) shape_warm111)
    as (o & st' & j & Hacc & _ & Hframe & _).
  exists o, st', j. split; [exact Hacc|exact Hframe].
Defined.

(** ** Runs of [INT_MAX] calls and more *)

(** The theorems above are about the calls made while [counter] is below
    [INT_MAX].  A trace file can hold more records than that.  What the
    program does then is followed here on the model, whose increments go
    round from [INT_MAX] to [INT_MIN]. *)





















(** * Further properties of the code *)

(** ** Addresses and blocks *)

Lemma decode_block g a :
  valid_fields g →
  set_of g a = block_of g a mod 2 ^ s g
  ∧ (is_addr a → tag_of g a = block_of g a / 2 ^ s g).
Proof.
  intros Hg. split; [by apply set_of_eq|]. intros Ha.
  rewrite tag_of_eq by done. destruct Hg as (Hb & Hs & Hbs).
  unfold block_of. rewrite <- Z.shiftr_shiftr by lia.
  apply Z.shiftr_div_pow2. lia.
Qed.

Lemma same_block_decode g a a' :
  valid_fields g → block_of g a = block_of g a' →
  set_of g a = set_of g a' ∧ tag_of g a = tag_of g a'.
Proof.
  intros (Hb & Hs & Hbs) Hblk. split.
  - unfold set_of, shr64. by fold (block_of g a); rewrite Hblk.
  - unfold tag_of, shr64. rewrite <- !(Z.shiftr_shiftr _ (b g) (s g)) by lia.
    by fold (block_of g a) (block_of g a'); rewrite Hblk.
Qed.

Lemma access_same_fields g a a' st :
  set_of g a = set_of g a' → tag_of g a = tag_of g a' →
  access_data g a st = access_data g a' st.
Proof. intros Hs Ht. unfold access_data. by rewrite Hs, Ht. Qed.

Lemma block_from_fields g a :
  valid_fields g → is_addr a →
  block_of g a = tag_of g a * 2 ^ s g + set_of g a.
Proof.
  intros Hg Ha. destruct (decode_block g a Hg) as [-> Ht]. rewrite Ht by done.
  assert (0 < 2 ^ s g).
  { destruct Hg as (_ & ? & _). apply Z.pow_pos_nonneg; lia. }
  rewrite Z.mul_comm. apply Z.div_mod. lia.
Qed.

(** X1. The decoder sees an address only through its block: two 64-bit
    addresses get the same set index and the same tag exactly when they lie
    in the same block. *)
Theorem decode_same_block (g : config) (a a' : Z) :
  valid_fields g → is_addr a → is_addr a' →
  (set_of g a = set_of g a' ∧ tag_of g a = tag_of g a')
  ↔ block_of g a = block_of g a'.
Proof.
  intros Hg Ha Ha'.
  destruct (decode_block g a Hg) as [Hs Ht].
  destruct (decode_block g a' Hg) as [Hs' Ht'].
  rewrite Hs, Hs', Ht, Ht' by done.
  assert (0 < 2 ^ s g) as Hpos.
  { destruct Hg as (_ & ? & _). apply Z.pow_pos_nonneg; lia. }
  split.
  - intros [Hm Hd].
    rewrite (Z.div_mod (block_of g a) (2 ^ s g)) by lia.
    rewrite (Z.div_mod (block_of g a') (2 ^ s g)) by lia.
    by rewrite Hm, Hd.
  - by intros ->.
Qed.

(** X2. The offset bits play no part in an access: on any state, addresses of
    the same block give the same outcome and the same next state. *)
Theorem same_block_same_access (g : config) (a a' : Z) (st : state) :
  valid_fields g → block_of g a = block_of g a' →
  access_data g a st = access_data g a' st.
Proof.
  intros (Hb & Hs & Hbs) Hblk.
  assert (set_of g a = set_of g a') as Hset.
  { unfold set_of, shr64. by fold (block_of g a); rewrite Hblk. }
  assert (tag_of g a = tag_of g a') as Htag.
  { unfold tag_of, shr64. rewrite <- !(Z.shiftr_shiftr _ (b g) (s g)) by lia.
    by fold (block_of g a) (block_of g a'); rewrite Hblk. }
  unfold access_data. by rewrite Hset, Htag.
Qed.

(** ** The first access to a fresh cache *)

Lemma init_cache_lines g st0 i j :
  init_cache g = Some st0 →
  line_at (cache st0) i j
  = if decide (Z.of_nat i < num_sets g ∧ Z.of_nat j < E g)
    then Some empty_line else None.
Proof.
  intros (_ & ->)%init_cache_Some. simpl. unfold line_at.
  case_decide as Hd.
  - rewrite lookup_replicate_2 by lia. simpl.
    by rewrite lookup_replicate_2 by lia.
  - destruct (decide (Z.of_nat i < num_sets g)).
    + rewrite lookup_replicate_2 by lia. simpl.
      apply lookup_replicate_None. lia.
    + replace (replicate (Z.to_nat (num_sets g))
                 (replicate (Z.to_nat (E g)) empty_line) !! i)
        with (@None (list cache_line_t)); [done|].
      symmetry. apply lookup_replicate_None. lia.
Qed.

(** X3. [init_cache] builds [2^s] sets of [E] lines, all of them invalid with
    tag 0 and count 0, and nothing else; whatever the address, the first
    access to this cache is a miss that fills line 0 of its set with the
    stamp 1 and evicts nothing. *)
Theorem cold_start (g : config) (st0 : state) (a : Z) :
  valid_config g → init_cache g = Some st0 →
  (∀ i j, line_at (cache st0) i j
          = if decide (Z.of_nat i < num_sets g ∧ Z.of_nat j < E g)
            then Some empty_line else None)
  ∧ ∃ st1,
      access_data g a st0 = Some (MissFill, st1)
      ∧ line_at (cache st1) (Z.to_nat (set_of g a)) 0
        = Some {| valid := "1"%char; tag := tag_of g a; count := 1 |}
      ∧ hit_cnt st1 = 0 ∧ miss_cnt st1 = 1 ∧ evict_cnt st1 = 0
      ∧ counter st1 = 2.
Proof.
  intros Hg Hinit. split; [intros; by apply init_cache_lines|].
  pose proof (Inv_init g st0 Hinit) as HI.
  destruct (init_cache_Some g st0 Hinit) as (_ & Hst0).
  assert (counter st0 = 1) as Hk by (by subst st0).
  destruct (shape_set g st0 a (inv_shape _ _ HI) (proj1 Hg))
    as (cs & Hcs & Hlen).
  assert (∀ j l, cs !! j = Some l → l = empty_line) as Hempty.
  { intros j l Hl. apply (init_line_at g st0 (Z.to_nat (set_of g a)) j);
      [done|]. by rewrite (line_at_set _ _ _ _ Hcs). }
  destruct (lookup_lt_is_Some_2 cs 0%nat) as [l0 Hl0].
  { destruct Hg as [_ HE]. lia. }
  pose proof (Hempty _ _ Hl0) as ->.
  destruct (miss_fill_run g a st0 cs 0%nat empty_line HI Hg)
    as (i & Hi & Hacc); try done.
  { rewrite Hk. unfold INT_MAX. lia. }
  { intros j l Hl [Hv _]. by rewrite (Hempty _ _ Hl) in Hv. }
  assert (i = 0%nat) as ->.
  { apply (first_at_unique is_free cs); [done|].
    split; [by exists empty_line|intros; lia]. }
  eexists. split; [exact Hacc|]. rewrite <- Hk.
  split; [by eapply line_at_fill|]. subst st0. by simpl.
Qed.

(** ** Immediate re-use *)

(** X4. In a run, whatever a call did, a call that follows it at once on an
    address of the same block is a hit: it adds nothing to [miss_cnt] or
    [evict_cnt]. *)
Theorem reaccess_hits (g : config) (a a' : Z) (st st1 : state) (o : outcome) :
  valid_config g → reachable g st → counter st + 1 < INT_MAX →
  block_of g a' = block_of g a →
  access_data g a st = Some (o, st1) →
  ∃ st2, access_data g a' st1 = Some (Hit, st2)
         ∧ hit_cnt st2 = hit_cnt st1 + 1
         ∧ miss_cnt st2 = miss_cnt st1
         ∧ evict_cnt st2 = evict_cnt st1.
Proof.
  intros Hg Hr Hc Hblk Hacc.
  pose proof (reachable_Inv g st Hg Hr) as HI.
  destruct (second_access_hits g a st o st1 HI Hg Hc Hacc)
    as (_ & _ & _ & i & H2).
  destruct (same_block_decode g a' a (proj1 Hg) Hblk) as [Hs Ht].
  rewrite (access_same_fields g a' a st1 Hs Ht).
  eexists. split; [exact H2|]. by simpl.
Qed.

(** ** What a call writes *)

(** The cache after a call, read off the code without any assumption on the
    state: the one store of the path taken. *)
Lemma access_data_write g a st o st' :
  access_data g a st = Some (o, st') →
  let set := Z.to_nat (set_of g a) in
  match o with
  | Hit =>
      ∃ i, cache st' = write_line (cache st) set i (set_count (counter st))
  | MissFill | MissEvict =>
      ∃ i, cache st'
           = write_line (cache st) set i (fill_line (tag_of g a) (counter st))
  | MissNoLine => cache st' = cache st
  end.
Proof.
  unfold access_data.
  destruct (find_hit _ _ _ _ _) as [[i|]|]; simpl; [| |done].
  - intros [= <- <-]. by exists i.
  - destruct (find_victim _ _ _ _ _ _) as [[[f|] [e|]]|]; simpl;
      intros [= <- <-]; simpl; eauto.
Qed.

Lemma find_hit_ext c1 c2 set tg :
  (∀ j, line_at c1 set j = line_at c2 set j) →
  ∀ n line, find_hit c1 set tg line n = find_hit c2 set tg line n.
Proof.
  intros Hext. induction n as [|n IH]; intros line; simpl; [done|].
  rewrite Hext. destruct (line_at c2 set line) as [l|]; simpl; [|done].
  by rewrite IH.
Qed.

Lemma find_victim_ext c1 c2 set :
  (∀ j, line_at c1 set j = line_at c2 set j) →
  ∀ n line ev mc,
    find_victim c1 set line n ev mc = find_victim c2 set line n ev mc.
Proof.
  intros Hext. induction n as [|n IH]; intros line ev mc; simpl; [done|].
  rewrite Hext. destruct (line_at c2 set line) as [l|]; simpl; [|done].
  by rewrite !IH.
Qed.

(** The outcome of a call depends on the lines of its set only. *)
Lemma access_outcome_ext g a st1 st2 :
  (∀ j, line_at (cache st1) (Z.to_nat (set_of g a)) j
        = line_at (cache st2) (Z.to_nat (set_of g a)) j) →
  fst <$> access_data g a st1 = fst <$> access_data g a st2.
Proof.
  intros Hext. unfold access_data.
  rewrite (find_hit_ext _ _ _ _ Hext).
  destruct (find_hit _ _ _ _ _) as [[i|]|]; simpl; [done| |done].
  rewrite (find_victim_ext _ _ _ Hext).
  by destruct (find_victim _ _ _ _ _ _) as [[[f|] [e|]]|].
Qed.

(** ** Independence of the sets *)

(** X5. A call touches its own set only: every line of another set is as
    before, so a call on another set has the same outcome (hit, fill or
    eviction) whether it is made before or after it. *)
Theorem set_independence (g : config) (a a' : Z) (st st1 : state)
    (o : outcome) :
  valid_fields g → set_of g a ≠ set_of g a' →
  access_data g a st = Some (o, st1) →
  (∀ j, line_at (cache st1) (Z.to_nat (set_of g a')) j
        = line_at (cache st) (Z.to_nat (set_of g a')) j)
  ∧ fst <$> access_data g a' st1 = fst <$> access_data g a' st.
Proof.
  intros Hg Hne Hacc.
  assert (Z.to_nat (set_of g a') ≠ Z.to_nat (set_of g a)) as Hne'.
  { pose proof (set_of_bound g a Hg). pose proof (set_of_bound g a' Hg). lia. }
  assert (∀ j, line_at (cache st1) (Z.to_nat (set_of g a')) j
               = line_at (cache st) (Z.to_nat (set_of g a')) j) as Hframe.
  { intros j. pose proof (access_data_write g a st o st1 Hacc) as Hw.
    simpl in Hw.
    destruct o; [destruct Hw as [i ->]..|by rewrite Hw];
      apply line_at_write_ne; congruence. }
  split; [done|]. by apply access_outcome_ext.
Qed.

(** ** Lines are never invalidated *)

Lemma valid_step g a st o st' i j l :
  access_data g a st = Some (o, st') →
  line_at (cache st) i j = Some l → is_valid l →
  ∃ l', line_at (cache st') i j = Some l' ∧ is_valid l'.
Proof.
  intros Hacc Hl Hv. pose proof (access_data_write g a st o st' Hacc) as Hw.
  simpl in Hw.
  assert (∀ k f, (∀ x, is_valid x → is_valid (f x)) →
    ∃ l', line_at (write_line (cache st) (Z.to_nat (set_of g a)) k f) i j
          = Some l' ∧ is_valid l') as Hgo.
  { intros k f Hf. rewrite line_at_write. case_decide as Hd.
    - injection Hd as -> ->. rewrite Hl. simpl. eauto.
    - eauto. }
  destruct o; [destruct Hw as [k ->]..|rewrite Hw; by eauto];
    by apply Hgo.
Qed.

(** X6. No sequence of calls ever clears a valid flag: a line that is valid
    stays valid, on any state and for any addresses. *)
Theorem valid_stays_valid (g : config) (l : list Z) (st st' : state)
    (os : list outcome) (i j : nat) (ln : cache_line_t) :
  access_all g l st = Some (os, st') →
  line_at (cache st) i j = Some ln → is_valid ln →
  ∃ ln', line_at (cache st') i j = Some ln' ∧ is_valid ln'.
Proof.
  revert st os ln. induction l as [|a l IH]; intros st os ln; simpl.
  - intros [= <- <-] Hl Hv. eauto.
  - destruct (access_data g a st) as [[o st1]|] eqn:Hacc; simpl; [|done].
    destruct (access_all g l st1) as [[os1 st2]|] eqn:Hall; simpl; [|done].
    intros [= <- <-] Hl Hv.
    destruct (valid_step g a st o st1 i j ln Hacc Hl Hv) as (l1 & Hl1 & Hv1).
    by apply (IH st1 os1 l1).
Qed.

(** ** Misses, evictions and occupancy *)

Lemma total_alter {A} (w : A → Z) (f : A → A) l i x :
  l !! i = Some x → total w (alter f i l) = total w l - w x + w (f x).
Proof.
  revert i. induction l as [|y l IH]; intros [|i]; simpl; try done.
  - intros [= ->]. lia.
  - intros Hx. change (list_alter f i l) with (alter f i l).
    rewrite (IH i Hx). lia.
Qed.

Lemma total_replicate {A} (w : A → Z) n x :
  total w (replicate n x) = Z.of_nat n * w x.
Proof. induction n as [|n IH]; simpl; [lia|]. fold (total w). lia. Qed.

Lemma total_bound {A} (w : A → Z) m l :
  (∀ i x, l !! i = Some x → 0 <= w x <= m) →
  0 <= total w l <= Z.of_nat (length l) * m.
Proof.
  induction l as [|y l IH]; intros Hw; simpl; [lia|].
  fold (total w l). pose proof (Hw 0%nat y eq_refl).
  assert (0 <= total w l <= Z.of_nat (length l) * m).
  { apply IH. intros i x Hx. by apply (Hw (S i)). }
  lia.
Qed.

Lemma line_weight_valid l : is_valid l → line_weight l = 1.
Proof. unfold is_valid, line_weight. by intros ->. Qed.

Lemma line_weight_free l : is_free l → line_weight l = 0.
Proof. unfold is_free, line_weight. by intros ->. Qed.

Lemma line_weight_range l : 0 <= line_weight l <= 1.
Proof. unfold line_weight. destruct (Ascii.eqb _ _); lia. Qed.

Lemma valid_lines_write c set line f cs l :
  c !! set = Some cs → cs !! line = Some l →
  valid_lines (write_line c set line f)
  = valid_lines c - line_weight l + line_weight (f l).
Proof.
  intros Hcs Hl. unfold valid_lines, write_line.
  rewrite (total_alter _ _ _ _ _ Hcs), (total_alter _ _ _ _ _ Hl). lia.
Qed.

Lemma occupancy_step g a st o st' :
  Inv g st → valid_config g → counter st < INT_MAX →
  access_data g a st = Some (o, st') →
  miss_cnt st' - evict_cnt st' - valid_lines (cache st')
  = miss_cnt st - evict_cnt st - valid_lines (cache st).
Proof.
  intros HI Hg Hc Hacc.
  destruct (access_data_run g a st HI Hg Hc) as (cs & Hcs & _ & Hp).
  destruct Hp as [(i & [(l & Hl & Hv & _) _] & Heq)
                 |[(_ & i & [(l & Hl & Hf) _] & Heq)
                  |(_ & Hall & e & (l & Hl & _) & Heq)]];
    rewrite Heq in Hacc; injection Hacc as <- <-; simpl;
    rewrite (valid_lines_write _ _ _ _ _ _ Hcs Hl).
  - pose proof (line_weight_valid l Hv).
    pose proof (line_weight_valid (set_count (counter st) l) Hv). lia.
  - pose proof (line_weight_free l Hf).
    pose proof (line_weight_valid
                  (fill_line (tag_of g a) (counter st) l) eq_refl). lia.
  - pose proof (line_weight_valid l (Hall _ _ Hl)).
    pose proof (line_weight_valid
                  (fill_line (tag_of g a) (counter st) l) eq_refl). lia.
Qed.

(** X7. In every state of a run the misses that were not evictions are the
    fills, one per valid line: [miss_cnt - evict_cnt] is the number of
    valid lines of the cache, which is at most [2^s * E]. *)
Theorem occupancy_accounting (g : config) (st : state) :
  valid_config g → reachable g st →
  miss_cnt st - evict_cnt st = valid_lines (cache st)
  ∧ 0 <= valid_lines (cache st) <= num_sets g * E g.
Proof.
  intros Hg Hr. split.
  - induction Hr as [st0 H0|st a o st' Hr IH _ Hc Hacc].
    + destruct (init_cache_Some g st0 H0) as (_ & ->). simpl.
      unfold valid_lines. rewrite !total_replicate.
      change (line_weight empty_line) with 0. lia.
    + pose proof (reachable_Inv g st Hg Hr) as HI.
      pose proof (occupancy_step g a st o st' HI Hg Hc Hacc). lia.
  - destruct (inv_shape _ _ (reachable_Inv g st Hg Hr)) as [Hsets Hlines].
    unfold valid_lines.
    assert (0 <= E g) as HE by (destruct Hg; lia).
    assert (0 <= num_sets g) as HS by (unfold num_sets; apply Z.pow_nonneg; lia).
    pose proof (total_bound (total line_weight) (E g) (cache st)) as Hb.
    rewrite Hsets, Z2Nat.id in Hb by done. apply Hb.
    intros i cs Hcs.
    pose proof (total_bound line_weight 1 cs) as Hb'.
    rewrite (Hlines _ _ Hcs), Z2Nat.id in Hb' by done.
    assert (0 <= total line_weight cs <= E g * 1); [|lia].
    apply Hb'. intros; apply line_weight_range.
Qed.

(** ** The most recently used block *)

(** X8. In a run, with at least two lines per set, the block a call has just
    accessed is not the one the next call displaces: when both calls are
    made while [counter] is below [INT_MAX], after the second, whatever its
    address and outcome, that block is still held by a valid line of its
    set. *)
Theorem mru_survives (g : config) (a a' : Z) (st st1 st2 : state)
    (o o' : outcome) :
  valid_config g → 2 <= E g →
  reachable g st → counter st + 1 < INT_MAX →
  access_data g a st = Some (o, st1) →
  access_data g a' st1 = Some (o', st2) →
  resident (cache st2) (Z.to_nat (set_of g a)) (tag_of g a).
Proof.
  intros Hg HE Hr Hc H1 H2.
  pose proof (reachable_Inv g st Hg Hr) as HI.
  destruct (access_touch g a st HI Hg) as
    (o0 & st0 & j & l & Hacc & _ & Hk & Hl & Hh & Hcnt & _); [lia|].
  rewrite H1 in Hacc. injection Hacc as <- <-.
  assert (Inv g st1) as HI1 by (eapply Inv_step; [done|done|lia|exact H1]).
  destruct (access_data_run g a' st1 HI1 Hg) as (cs & Hcs & Hlen & Hp); [lia|].
  assert (Hkeep : ∀ k f,
    ((Z.to_nat (set_of g a), j) = (Z.to_nat (set_of g a'), k) →
     hits_tag (tag_of g a) (f l)) →
    resident (write_line (cache st1) (Z.to_nat (set_of g a')) k f)
      (Z.to_nat (set_of g a)) (tag_of g a)).
  { intros k f Hf. exists j. rewrite line_at_write. case_decide as Hd.
    - injection Hd as Hs ->. rewrite <- Hs, Hl. simpl.
      eexists; split; [done|]. apply Hf. by rewrite Hs.
    - by exists l. }
  destruct Hp as [(i & _ & Heq)
                 |[(_ & i & [(lf & Hlf & Hfree) _] & Heq)
                  |(_ & Hall & e & (le & Hle & Hlt) & Heq)]];
    rewrite Heq in H2; injection H2 as <- <-; simpl; apply Hkeep.
  - intros _. by destruct Hh.
  - intros [= Hs Hj]. subst i. exfalso.
    rewrite <- Hs in Hcs. rewrite (line_at_set _ _ _ _ Hcs) in Hl.
    replace lf with l in Hfree by congruence.
    by apply (free_not_valid l Hfree), Hh.
  - intros [= Hs Hj]. subst e. exfalso.
    rewrite <- Hs in Hcs. rewrite (line_at_set _ _ _ _ Hcs) in Hl.
    replace le with l in * by congruence.
    set (k := (if decide (j = 0%nat) then 1 else 0)%nat).
    destruct (lookup_lt_is_Some_2 cs k) as [lk Hlk];
      [unfold k; case_decide; lia|].
    assert (count l < count lk) as Hlt'.
    { apply (Hlt k lk); [unfold k; case_decide; lia|done]. }
    pose proof (inv_count _ _ HI1 (Z.to_nat (set_of g a)) k lk) as Hb.
    rewrite (line_at_set _ _ _ _ Hcs) in Hb.
    specialize (Hb Hlk (Hall _ _ Hlk)). lia.
Qed.

(** ** The layout of the sets in a run *)

Lemma tidy_step g a st o st' :
  Inv g st → valid_config g → counter st < INT_MAX →
  tidy (cache st) → access_data g a st = Some (o, st') → tidy (cache st').
Proof.
  intros HI Hg Hc [Hfree Hpre] Hacc.
  destruct (access_data_run g a st HI Hg Hc) as (cs & Hcs & _ & Hp).
  assert (Hgo : ∀ k f lk,
    cs !! k = Some lk → is_valid (f lk) →
    (is_valid lk ∨ first_at is_free cs k) →
    tidy (write_line (cache st) (Z.to_nat (set_of g a)) k f)).
  { intros k f lk Hlk Hv Hold. split.
    - intros i j l. rewrite line_at_write. case_decide as Hd.
      + rewrite (line_at_set _ _ _ _ Hcs), Hlk. simpl. intros [= <-] Hf.
        by destruct (free_not_valid _ Hf).
      + apply Hfree.
    - intros i j j' l l'. rewrite !line_at_write.
      case_decide as Hd; case_decide as Hd'.
      + intros _ _ Hlt. assert (j = j') by congruence. lia.
      + rewrite (line_at_set _ _ _ _ Hcs), Hlk. simpl.
        by intros [= <-] _ _ _.
      + assert (i = Z.to_nat (set_of g a) ∧ j' = k) as [-> ->]
          by (split; congruence).
        rewrite !(line_at_set _ _ _ _ Hcs), Hlk. simpl.
        intros Hl [= <-] Hlt _. destruct Hold as [Hvk|[_ Hlow]].
        * apply (Hpre (Z.to_nat (set_of g a)) j k l lk); try done;
            by rewrite (line_at_set _ _ _ _ Hcs).
        * destruct (inv_flag _ _ HI (Z.to_nat (set_of g a)) j l)
            as [Hf|?]; [by rewrite (line_at_set _ _ _ _ Hcs)| |done].
          by destruct (Hlow j l).
      + apply Hpre. }
  destruct Hp as [(i & [(l & Hl & Hv & _) _] & Heq)
                 |[(_ & i & Hi & Heq)
                  |(_ & Hall & e & (l & Hl & _) & Heq)]];
    rewrite Heq in Hacc; injection Hacc as <- <-; simpl.
  - apply (Hgo i _ l); [done|done|by left].
  - pose proof Hi as [(l & Hl & _) _]. apply (Hgo i _ l); [done|done|by right].
  - apply (Hgo e _ l); [done|done|left; by apply (Hall e)].
Qed.

Lemma reachable_tidy g st :
  valid_config g → reachable g st → tidy (cache st).
Proof.
  intros Hg. induction 1 as [st0 H0|st a o st' Hr IH _ Hc Hacc].
  - split.
    + intros i j l Hl _. by apply (init_line_at g st0 i j).
    + intros i j j' l l' _ Hl' _ Hv.
      by rewrite (init_line_at g st0 i j' l' H0 Hl') in Hv.
  - by apply (tidy_step g a st o st' (reachable_Inv g st Hg Hr)).
Qed.

(** X9. In every state of a run, each set is a row of valid lines holding
    pairwise different tags, followed by lines still as [init_cache] left
    them: no block is cached twice, and the lines are taken in index
    order. *)
Theorem set_layout (g : config) (st : state) :
  valid_config g → reachable g st →
  (∀ i j l, line_at (cache st) i j = Some l → l = empty_line ∨ is_valid l)
  ∧ (∀ i j j' l l',
       line_at (cache st) i j = Some l → line_at (cache st) i j' = Some l' →
       (j < j')%nat → is_valid l' → is_valid l ∧ tag l ≠ tag l').
Proof.
  intros Hg Hr. pose proof (reachable_Inv g st Hg Hr) as HI.
  destruct (reachable_tidy g st Hg Hr) as [Hfree Hpre]. split.
  - intros i j l Hl. destruct (inv_flag _ _ HI _ _ _ Hl); eauto.
  - intros i j j' l l' Hl Hl' Hlt Hv'.
    assert (is_valid l) as Hv by (by apply (Hpre i j j' l l')).
    split; [done|]. intros Heq.
    pose proof (inv_tags _ _ HI i j j' l l' Hl Hl' Hv Hv' Heq). lia.
Qed.

(** ** A working set that fits *)

Lemma resident_write c set k f i t :
  (∀ lk, line_at c set k = Some lk → is_valid lk →
         is_valid (f lk) ∧ tag (f lk) = tag lk) →
  resident c i t → resident (write_line c set k f) i t.
Proof.
  intros Hf (j & l & Hl & Hv & Ht). exists j.
  rewrite line_at_write. case_decide as Hd.
  - injection Hd as -> ->. rewrite Hl. simpl.
    destruct (Hf l Hl Hv) as [Hv' Ht'].
    eexists; split; [done|]. split; [done|congruence].
  - by exists l.
Qed.

Lemma tags_in_elem g set (l : list Z) a :
  a ∈ l → set_of g a = set → tag_of g a ∈ remove_dups (tags_in g set l).
Proof.
  intros Ha Hs. apply elem_of_remove_dups. unfold tags_in.
  apply list_elem_of_fmap. exists a. split; [done|].
  by apply list_elem_of_filter.
Qed.

(** A full set holds [E] different tags, all of addresses seen before; a
    further tag for that set makes [E + 1]. *)
Lemma full_set_overflows g (L seen : list Z) st a cs :
  Inv g st → valid_config g →
  (∀ x, x ∈ seen → x ∈ L) → a ∈ L →
  (∀ i j ln, line_at (cache st) i j = Some ln → is_valid ln →
     ∃ x, x ∈ seen ∧ Z.to_nat (set_of g x) = i ∧ tag_of g x = tag ln) →
  cache st !! Z.to_nat (set_of g a) = Some cs →
  length cs = Z.to_nat (E g) →
  absent (tag_of g a) cs →
  (∀ j l, cs !! j = Some l → is_valid l) →
  E g < distinct_tags g (set_of g a) L.
Proof.
  intros HI Hg HsL HaL HR2 Hcs Hlen Habs Hall.
  assert (NoDup (tag_of g a :: (tag <$> cs))) as Hnd.
  { apply NoDup_cons. split.
    - intros (l & Ht & Hl)%list_elem_of_fmap.
      apply list_elem_of_lookup in Hl as [j Hj].
      apply (Habs j l Hj). split; [by apply (Hall j)|done].
    - apply NoDup_alt. intros i j x.
      rewrite !list_lookup_fmap.
      destruct (cs !! i) as [li|] eqn:Hi; simpl; [|done].
      destruct (cs !! j) as [lj|] eqn:Hj; simpl; [|done].
      intros [= <-] [= Ht].
      apply (inv_tags _ _ HI (Z.to_nat (set_of g a)) i j li lj);
        rewrite ?(line_at_set _ _ _ _ Hcs); eauto. }
  assert (∀ x, x ∈ tag_of g a :: (tag <$> cs) →
               x ∈ remove_dups (tags_in g (set_of g a) L)) as Hsub.
  { intros x [->|Hx]%elem_of_cons; [by apply tags_in_elem|].
    apply list_elem_of_fmap in Hx as (l & -> & Hl).
    apply list_elem_of_lookup in Hl as [j Hj].
    destruct (HR2 (Z.to_nat (set_of g a)) j l) as (x & Hx & Hs & Ht).
    { by rewrite (line_at_set _ _ _ _ Hcs). }
    { by apply (Hall j). }
    rewrite <- Ht. apply tags_in_elem; [by apply HsL|].
    pose proof (set_of_bound g a (proj1 Hg)).
    pose proof (set_of_bound g x (proj1 Hg)). lia. }
  pose proof (submseteq_length _ _ (NoDup_submseteq _ _ Hnd Hsub)) as Hle.
  simpl in Hle. rewrite length_fmap, Hlen in Hle.
  unfold distinct_tags. destruct Hg as [_ HE]. lia.
Qed.

Lemma fits_run g (L : list Z) :
  valid_config g →
  (∀ a, a ∈ L → is_addr a) →
  (∀ a, a ∈ L → distinct_tags g (set_of g a) L <= E g) →
  ∀ (l seen : list Z) st,
    Inv g st → counter st + Z.of_nat (length l) <= INT_MAX →
    (∀ a, a ∈ seen → a ∈ L) → (∀ a, a ∈ l → a ∈ L) →
    (∀ a, a ∈ seen →
       resident (cache st) (Z.to_nat (set_of g a)) (tag_of g a)) →
    (∀ i j ln, line_at (cache st) i j = Some ln → is_valid ln →
       ∃ a, a ∈ seen ∧ Z.to_nat (set_of g a) = i ∧ tag_of g a = tag ln) →
    ∃ st',
      access_all g l st
      = Some (cold_outcomes g (block_of g <$> seen) l, st')
      ∧ evict_cnt st' = evict_cnt st
      ∧ ∀ a, a ∈ seen ∨ a ∈ l →
          resident (cache st') (Z.to_nat (set_of g a)) (tag_of g a).
Proof.
  intros Hg Haddr Hfit.
  induction l as [|a l IH]; intros seen st HI Hc HsL HlL HR1 HR2.
  - exists st. simpl. split_and!; try done.
    intros a [?|?%elem_of_nil]; [auto|done].
  - simpl in Hc.
    assert (a ∈ L) as HaL by (apply HlL; by left).
    destruct (access_data_run g a st HI Hg) as (cs & Hcs & Hlen & Hp); [lia|].
    (* what is needed to go on after the call on [a] *)
    assert (Hnext : ∀ o st1,
      access_data g a st = Some (o, st1) →
      o = (if bool_decide (block_of g a ∈ block_of g <$> seen)
           then Hit else MissFill) →
      evict_cnt st1 = evict_cnt st → counter st1 = counter st + 1 →
      (∀ x, x ∈ a :: seen →
         resident (cache st1) (Z.to_nat (set_of g x)) (tag_of g x)) →
      (∀ i j ln, line_at (cache st1) i j = Some ln → is_valid ln →
         ∃ x, x ∈ a :: seen ∧ Z.to_nat (set_of g x) = i
              ∧ tag_of g x = tag ln) →
      ∃ st',
        access_all g (a :: l) st
        = Some (cold_outcomes g (block_of g <$> seen) (a :: l), st')
        ∧ evict_cnt st' = evict_cnt st
        ∧ ∀ x, x ∈ seen ∨ x ∈ a :: l →
            resident (cache st') (Z.to_nat (set_of g x)) (tag_of g x)).
    { intros o st1 Hacc Ho He Hk HR1' HR2'.
      assert (Inv g st1) as HI1 by (eapply Inv_step; [done|done|lia|exact Hacc]).
      destruct (IH (a :: seen) st1 HI1) as (st' & Hrun & He' & Hres);
        try done; [lia| | |].
      { intros x [->|?]%elem_of_cons; auto. }
      { intros x Hx. apply HlL. by right. }
      exists st'. simpl. rewrite Hacc. simpl. rewrite Hrun. simpl.
      split_and!; [by rewrite Ho|congruence|].
      intros x [Hx|[->|Hx]%elem_of_cons]; apply Hres; auto;
        left; apply elem_of_cons; auto. }
    assert (HR2w : ∀ k f lk,
      cs !! k = Some lk →
      (is_valid lk → tag (f lk) = tag lk) →
      (¬ is_valid lk → tag (f lk) = tag_of g a) →
      ∀ i j ln,
        line_at (write_line (cache st) (Z.to_nat (set_of g a)) k f) i j
        = Some ln → is_valid ln →
        ∃ x, x ∈ a :: seen ∧ Z.to_nat (set_of g x) = i
             ∧ tag_of g x = tag ln).
    { intros k f lk Hlk Hold Hnew i j ln. rewrite line_at_write.
      destruct (decide ((i, j) = (Z.to_nat (set_of g a), k))) as [Hd|Hd].
      - injection Hd as -> ->.
        rewrite (line_at_set _ _ _ _ Hcs), Hlk. simpl. intros [= <-] _.
        destruct (Ascii.eqb_spec (valid lk) "1"%char) as [Hv|Hv].
        + destruct (HR2 (Z.to_nat (set_of g a)) k lk) as (x & Hx & ? & ?);
            [by rewrite (line_at_set _ _ _ _ Hcs)|done|].
          exists x. split_and!; [by right|done|]. rewrite Hold; done.
        + exists a. split_and!; [by left|done|]. by rewrite Hnew.
      - intros Hl Hv. destruct (HR2 i j ln Hl Hv) as (x & Hx & ? & ?).
        exists x. split_and!; [by right|done..]. }
    destruct Hp as [(i & [(lh & Hlh & Hv & Ht) _] & Heq)
                   |[(Habs & i & [(lf & Hlf & Hfree) _] & Heq)
                    |(Habs & Hall & _)]].
    + (* hit: the block was seen *)
      destruct (HR2 (Z.to_nat (set_of g a)) i lh) as (x & Hx & Hsx & Htx);
        [by rewrite (line_at_set _ _ _ _ Hcs)|done|].
      assert (block_of g a = block_of g x) as Hblk.
      { rewrite !block_from_fields;
          [|apply Hg|by apply Haddr, HsL|apply Hg|by apply Haddr].
        pose proof (set_of_bound g a (proj1 Hg)).
        pose proof (set_of_bound g x (proj1 Hg)).
        replace (set_of g x) with (set_of g a) by lia. congruence. }
      apply (Hnext Hit _ Heq); try done.
      * rewrite bool_decide_eq_true_2; [done|].
        rewrite Hblk. by apply list_elem_of_fmap_2.
      * intros y Hy. simpl. apply resident_write.
        { intros lk _ Hvk. by split. }
        apply elem_of_cons in Hy as [->|Hy]; [|by apply HR1].
        exists i, lh. split; [by rewrite (line_at_set _ _ _ _ Hcs)|done].
      * simpl. apply (HR2w i _ lh); [done|done|]. by intros [].
    + (* fill: the block is new *)
      apply (Hnext MissFill _ Heq); try done.
      * rewrite bool_decide_eq_false_2; [done|].
        intros (x & Hblk & Hx)%list_elem_of_fmap.
        destruct (same_block_decode g a x (proj1 Hg) Hblk) as [Hs Ht].
        destruct (HR1 x Hx) as (j & l0 & Hl0 & Hh).
        rewrite <- Hs, (line_at_set _ _ _ _ Hcs) in Hl0.
        apply (Habs j l0 Hl0). by rewrite Ht.
      * intros y Hy. simpl.
        apply elem_of_cons in Hy as [->|Hy].
        -- exists i. rewrite line_at_write_eq.
           rewrite (line_at_set _ _ _ _ Hcs), Hlf. simpl.
           eexists; split; [done|]. by split.
        -- apply resident_write; [|by apply HR1].
           intros lk Hlk Hvk. exfalso.
           rewrite (line_at_set _ _ _ _ Hcs) in Hlk.
           replace lk with lf in Hvk by congruence.
           by apply (free_not_valid lf).
      * simpl. apply (HR2w i _ lf); [done| |done].
        intros Hvf. by destruct (free_not_valid lf).
    + (* a full set without the tag: more than [E] tags *)
      exfalso.
      pose proof (full_set_overflows g L seen st a cs HI Hg HsL HaL HR2
                    Hcs Hlen Habs Hall).
      pose proof (Hfit a HaL). lia.
Qed.

(** X10. When the addresses of a sequence of fewer than [INT_MAX] calls carry
    at most [E] different tags in each set they touch, the cache does not
    evict: from a fresh cache a call hits exactly when its block was
    accessed before and fills a line otherwise, [evict_cnt] stays 0, and at
    the end every accessed block is still in the cache. *)
Theorem working_set_fits (g : config) (l : list Z) (st0 : state) :
  valid_config g → init_cache g = Some st0 →
  Z.of_nat (length l) < INT_MAX →
  (∀ a, a ∈ l → is_addr a) →
  (∀ a, a ∈ l → distinct_tags g (set_of g a) l <= E g) →
  ∃ st',
    access_all g l st0 = Some (cold_outcomes g [] l, st')
    ∧ evict_cnt st' = 0
    ∧ ∀ a, a ∈ l →
        resident (cache st') (Z.to_nat (set_of g a)) (tag_of g a).
Proof.
  intros Hg Hinit Hlen Haddr Hfit.
  pose proof (Inv_init g st0 Hinit) as HI0.
  destruct (init_cache_Some g st0 Hinit) as (_ & Hst0).
  destruct (fits_run g l Hg Haddr Hfit l [] st0 HI0)
    as (st' & Hrun & He & Hres); try done.
  - subst st0. simpl. lia.
  - intros a Ha. by apply elem_of_nil in Ha.
  - intros a Ha. by apply elem_of_nil in Ha.
  - intros i j ln Hl Hv.
    by rewrite (init_line_at g st0 i j ln Hinit Hl) in Hv.
  - exists st'. split_and!; [done|by subst st0|].
    intros a Ha. apply Hres. by right.
Qed.

(** ** The records of a trace *)

(** X11. The kind of a record matters only through the number of calls it
    stands for: replaying a trace gives the same outcomes and the same
    final state as replaying one Load record per call, so a Store is
    handled as a Load, a Modify as two Loads of its address, and any other
    record as nothing. *)
Theorem replay_as_loads (g : config) (tr : list trace_line) (st : state) :
  replay_trace g tr st = replay_trace g (loads (calls tr)) st.
Proof. by rewrite !replay_trace_calls, calls_loads. Qed.

(** ** The command line *)

Lemma handle_option_cases atoi c optarg o :
  if known_option c
  then ∃ o', handle_option atoi c optarg o = Returns o'
  else handle_option atoi c optarg o = Exits 0.
Proof.
  unfold known_option, handle_option.
  destruct (Ascii.eqb c "b"%char); simpl; [by eauto|].
  destruct (Ascii.eqb c "E"%char); simpl; [by eauto|].
  destruct (Ascii.eqb c "h"%char) eqn:Hh; simpl.
  - apply Ascii.eqb_eq in Hh as ->. done.
  - destruct (Ascii.eqb c "s"%char); simpl; [by eauto|].
    destruct (Ascii.eqb c "t"%char); simpl; [by eauto|].
    destruct (Ascii.eqb c "v"%char); simpl; [by eauto|done].
Qed.

Lemma getopt_loop_cases atoi opts o :
  (∃ o', getopt_loop atoi opts o = Returns o'
         ∧ ∀ c optarg, (c, optarg) ∈ opts → known_option c = true)
  ∨ (getopt_loop atoi opts o = Exits 0
     ∧ ∃ c optarg, (c, optarg) ∈ opts ∧ known_option c = false).
Proof.
  revert o. induction opts as [|[c optarg] opts IH]; intros o; simpl.
  - left. exists o. split; [done|]. intros c optarg Hin.
    by apply elem_of_nil in Hin.
  - pose proof (handle_option_cases atoi c optarg o) as Hc.
    destruct (known_option c) eqn:Hk.
    + destruct Hc as [o' ->]. simpl.
      destruct (IH o') as [(o'' & Hl & Hall)|(Hl & c' & a' & Hin & Hk')].
      * left. exists o''. split; [done|].
        intros c' a' [[= -> ->]|Hin]%elem_of_cons; eauto.
      * right. split; [done|]. exists c', a'. split; [by right|done].
    + rewrite Hc. simpl. right. split; [done|].
      exists c, optarg. split; [by left|done].
Qed.

Lemma forallb_false {A : Type} (f : A → bool) (l : list A) :
  forallb f l = false → ∃ x, x ∈ l ∧ f x = false.
Proof.
  induction l as [|x l IH]; simpl; [done|].
  destruct (f x) eqn:Hx; simpl.
  - intros (y & Hy & Hf)%IH. exists y. split; [by right|done].
  - intros _. exists x. split; [by left|done].
Qed.

Lemma forallb_true {A : Type} (f : A → bool) (l : list A) :
  forallb f l = true → ∀ x, x ∈ l → f x = true.
Proof.
  induction l as [|y l IH]; simpl; intros Hall x Hin.
  - by apply elem_of_nil in Hin.
  - apply andb_true_iff in Hall as [Hy Hl].
    apply elem_of_cons in Hin as [->|Hin]; [done|by apply IH].
Qed.

(** [allocate] ends with [exit(1)] exactly when a request is refused. *)
Lemma allocate_cases malloc g :
  (allocate malloc g = Returns tt
   ∧ granted malloc 0 (u64 (sizeof_set * sets_int g)) = true
   ∧ ∀ set, (set < Z.to_nat (sets_int g))%nat →
       granted malloc (S set) (u64 (sizeof_line * E g)) = true)
  ∨ (allocate malloc g = Exits 1
     ∧ (granted malloc 0 (u64 (sizeof_set * sets_int g)) = false
        ∨ ∃ set, (set < Z.to_nat (sets_int g))%nat
                 ∧ granted malloc (S set) (u64 (sizeof_line * E g))
                   = false)).
Proof.
  unfold allocate.
  destruct (granted malloc 0 _) eqn:H0; [|right; split; [done|by left]].
  destruct (forallb _ _) eqn:Hall.
  - left. split; [done|]. split; [done|]. intros set Hset.
    apply (forallb_true _ _ Hall). apply elem_of_seq. lia.
  - right. split; [done|]. right.
    apply forallb_false in Hall as (set & Hin & Hf).
    apply elem_of_seq in Hin. exists set. split; [lia|done].
Qed.

(** The array of [INT_MIN] sets that a power beyond [int] asks for is never
    granted: where [allocate] returns, [init_cache] has a result. *)
Lemma allocate_fits malloc g :
  allocate malloc g = Returns tt → num_sets g <= INT_MAX.
Proof.
  unfold allocate, sets_int, granted.
  destruct (Z.leb_spec (num_sets g) INT_MAX) as [Hn|Hn]; [done|].
  replace (u64 (sizeof_set * INT_MIN) <=? PTRDIFF_MAX) with false
    by reflexivity.
  done.
Qed.

Lemma too_large_exits malloc g :
  too_large g → allocate malloc g = Exits 1.
Proof.
  intros Hbig.
  destruct (allocate_cases malloc g) as [(Hret & H0 & Hall)|[Hex _]];
    [exfalso|done].
  pose proof (allocate_fits malloc g Hret) as Hfit.
  destruct Hbig as [Hn|(Hn & HE)]; [lia|].
  specialize (Hall 0%nat). unfold sets_int in Hall.
  destruct (Z.leb_spec (num_sets g) INT_MAX) as [_|?]; [|lia].
  unfold granted in Hall.
  assert ((u64 (sizeof_line * E g) <=? PTRDIFF_MAX) = false) as Hsize.
  { apply Z.leb_gt. unfold u64, sizeof_line, PTRDIFF_MAX, INT_MIN in *.
    replace (24 * E g) with (24 * E g + 2 ^ 64 + (-1) * 2 ^ 64) by lia.
    rewrite Z.mod_add by lia. rewrite Z.mod_small by lia. lia. }
  rewrite Hsize in Hall. simpl in Hall.
  assert (0 < Z.to_nat (num_sets g))%nat as Hpos by lia.
  by specialize (Hall Hpos).
Qed.

Lemma main_body_cases read_trace malloc o :
  (missing_argument o = true ∧ main_body read_trace malloc o = Exits 0)
  ∨ (missing_argument o = false
     ∧ (allocate malloc (config_of o) = Exits 1
        ∨ (allocate malloc (config_of o) = Returns tt
           ∧ ∃ tf, trace_file o = Some tf ∧ read_trace tf = None))
     ∧ main_body read_trace malloc o = Exits 1)
  ∨ (missing_argument o = false
     ∧ allocate malloc (config_of o) = Returns tt
     ∧ (¬ ∃ tf, trace_file o = Some tf ∧ read_trace tf = None)
     ∧ ∀ c, main_body read_trace malloc o ≠ Exits c).
Proof.
  unfold main_body. destruct (missing_argument o) eqn:Hm; [by left|].
  right.
  destruct (allocate_cases malloc (config_of o))
    as [(Hret & _)|[Hex _]]; [|left; rewrite Hex; simpl; by eauto].
  pose proof (allocate_fits malloc _ Hret) as Hn.
  rewrite Hret. simpl. unfold init_cache.
  destruct (Z.leb_spec (num_sets (config_of o)) INT_MAX) as [_|?]; [|lia].
  destruct (trace_file o) as [tf|] eqn:Htf; simpl.
  - destruct (read_trace tf) as [tr|] eqn:Hrd.
    + right. split; [done|]. split; [done|]. split.
      * intros (tf' & [= <-] & Hrd'). congruence.
      * intros c. by destruct (replay_trace _ _ _) as [[os st]|].
    + left. split; [done|]. split; [|done]. right. split; [done|].
      by exists tf.
  - unfold missing_argument in Hm. rewrite Htf in Hm.
    by rewrite orb_true_r in Hm.
Qed.

(** X13. Every misuse of the command line ends the program with status 0, the
    status [print_usage] exits with: the [exit(1)] that follows its call in
    [main] is never reached.  Status 1 is that of a request of [init_cache]
    answered with [NULL] or of a trace file that cannot be opened, and these
    are the only two statuses [main] exits with.  A complete command line
    whose geometry cannot be allocated, [2^s] beyond [int] or a negative
    [E], always ends with status 1. *)
Theorem main_exit_status (atoi : String.string → Z)
    (read_trace : String.string → option (list trace_line))
    (malloc : nat → Z → bool)
    (opts : list (ascii * String.string)) :
  (main atoi read_trace malloc opts = Exits 0 ↔ usage_error atoi opts)
  ∧ (main atoi read_trace malloc opts = Exits 1
     ↔ out_of_memory atoi malloc opts
       ∨ unreadable atoi read_trace malloc opts)
  ∧ (∀ c, main atoi read_trace malloc opts = Exits c → c = 0 ∨ c = 1)
  ∧ (∀ o, getopt_loop atoi opts no_options = Returns o →
          missing_argument o = false → too_large (config_of o) →
          main atoi read_trace malloc opts = Exits 1).
Proof.
  unfold main, usage_error, out_of_memory, unreadable.
  destruct (getopt_loop_cases atoi opts no_options)
    as [(o & Hl & Hall)|(Hl & c & a & Hin & Hk)]; rewrite Hl;
    cbn [and_then].
  - assert (Hknown : ¬ ∃ c optarg, (c, optarg) ∈ opts
                                   ∧ known_option c = false).
    { intros (c & a & Hin & Hk). by rewrite (Hall c a Hin) in Hk. }
    assert (Hbig : ∀ o', Returns o = Returns o' →
              missing_argument o' = false → too_large (config_of o') →
              main_body read_trace malloc o = Exits 1).
    { intros o' [= <-] Hm Hbig. unfold main_body. rewrite Hm.
      by rewrite (too_large_exits malloc _ Hbig). }
    destruct (main_body_cases read_trace malloc o)
      as [[Hm Hb]|[(Hm & Hun & Hb)|(Hm & Hret & Hun & Hb)]].
    + rewrite Hb. split_and!.
      * split; [|done]. intros _. right. by exists o.
      * split; [done|].
        intros [(o' & [= <-] & Hm' & _)|(o' & tf & [= <-] & Hm' & _)];
          congruence.
      * intros c [= <-]. by left.
      * intros o' [= <-] Hm'. congruence.
    + rewrite Hb. split_and!.
      * split; [done|]. intros [?|(o' & [= <-] & Hm')]; [done|congruence].
      * split; [|done]. intros _.
        destruct Hun as [Hex|(Hret & tf & Htf & Hrd)].
        -- left. exists o. split; [done|]. split; [done|].
           destruct (allocate_cases malloc (config_of o))
             as [(Hret & _)|[_ Hno]]; [congruence|done].
        -- right. by exists o, tf.
      * intros c [= <-]. by right.
      * done.
    + split_and!.
      * split; [by intros ?%Hb|].
        intros [?|(o' & [= <-] & Hm')]; [done|congruence].
      * split; [by intros ?%Hb|].
        intros [(o' & [= <-] & _ & Hno)|(o' & tf & [= <-] & _ & _ & Htf & Hrd)].
        -- destruct (allocate_cases malloc (config_of o))
             as [(_ & H0 & Hall')|[Hex _]]; [|congruence].
           destruct Hno as [Hno|(set & Hset & Hno)]; [congruence|].
           by rewrite (Hall' set Hset) in Hno.
        -- destruct Hun. by exists tf.
      * by intros c ?%Hb.
      * intros o' Ho' Hm' Hbig'. exfalso.
        pose proof (Hbig o' Ho' Hm' Hbig') as Hex. by apply Hb in Hex.
  - split_and!.
    + split; [|done]. intros _. left. by exists c, a.
    + split; [done|].
      by intros [(o' & [=] & _)|(o' & tf & [=] & _)].
    + intros c' [= <-]. by left.
    + by intros o' [=].
Qed.


(** ** The further properties at concrete inputs *)

Lemma decode_same_block_witness :
  (set_of g111 8 = set_of g111 9 ∧ tag_of g111 8 = tag_of g111 9)
  ↔ block_of g111 8 = block_of g111 9.
Proof.
  apply (decode_same_block g111 8 9).
  - exact (proj1 valid_g111).
  - unfold is_addr. lia.
  - unfold is_addr. lia.
Defined.

Lemma same_block_same_access_witness :
  access_data g111 8 warm111 = access_data g111 9 warm111.
Proof.
  apply (same_block_same_access g111 8 9 warm111).
  - exact (proj1 valid_g111).
  - reflexivity.
Defined.

Lemma cold_start_witness :
  ∃ st1, access_data g111 8 fresh111 = Some (MissFill, st1)
         ∧ miss_cnt st1 = 1 ∧ evict_cnt st1 = 0.
Proof.
  destruct (cold_start g111 fresh111 8)
    as (_ & st1 & Hacc & _ & _ & Hm & He & _).
  - exact valid_g111.
  - reflexivity.
  - exists st1. split; [exact Hacc|]. split; [exact Hm|exact He].
Defined.

Lemma reaccess_hits_witness :
  ∃ st2, access_data g111 1 warm111 = Some (Hit, st2)
         ∧ miss_cnt st2 = miss_cnt warm111.
Proof.
  destruct (reaccess_hits g111 0 1 fresh111 warm111 MissFill)
    as (st2 & Hacc & _ & Hm & _).
  - exact valid_g111.
  - exact reachable_fresh111.
  - reflexivity.
  - reflexivity.
  - reflexivity.
  - exists st2. split; [exact Hacc|exact Hm].
Defined.

Lemma set_independence_witness :
  fst <$> access_data g111 2 warm111 = fst <$> access_data g111 2 fresh111.
Proof.
  destruct (set_independence g111 0 2 fresh111 warm111 MissFill)
    as [_ Hout].
  - exact (proj1 valid_g111).
  - discriminate.
  - reflexivity.
  - exact Hout.
Defined.

Lemma valid_stays_valid_witness :
  ∃ os st' ln',
    access_all g111 [8; 0; 2] warm111 = Some (os, st')
    ∧ line_at (cache st') 0 0 = Some ln' ∧ is_valid ln'.
Proof.
  destruct (access_all g111 [8; 0; 2] warm111) as [[os st']|] eqn:Hrun;
    [|vm_compute in Hrun; discriminate Hrun].
  destruct (valid_stays_valid g111 [8; 0; 2] warm111 st' os 0 0
              {| valid := "1"%char; tag := 0; count := 1 |})
    as (ln' & Hl & Hv).
  - exact Hrun.
  - reflexivity.
  - reflexivity.
  - exists os, st', ln'. split; [reflexivity|]. split; [exact Hl|exact Hv].
Defined.

Lemma occupancy_accounting_witness :
  miss_cnt warm111 - evict_cnt warm111 = valid_lines (cache warm111)
  ∧ 0 <= valid_lines (cache warm111) <= num_sets g111 * E g111.
Proof.
  apply (occupancy_accounting g111 warm111).
  - exact valid_g111.
  - exact reachable_warm111.
Defined.

Lemma mru_survives_witness :
  ∃ o st1 o' st2,
    access_data g121 0 fresh121 = Some (o, st1)
    ∧ access_data g121 8 st1 = Some (o', st2)
    ∧ resident (cache st2) 0 0.
Proof.
  destruct (access_data g121 0 fresh121) as [[o st1]|] eqn:H1;
    [|vm_compute in H1; discriminate H1].
  destruct (access_data g121 8 st1) as [[o' st2]|] eqn:H2.
  - exists o, st1, o', st2. split; [reflexivity|]. split; [exact H2|].
    apply (mru_survives g121 0 8 fresh121 st1 st2 o o').
    + exact valid_g121.
    + simpl. lia.
    + exact reachable_fresh121.
    + reflexivity.
    + exact H1.
    + exact H2.
  - vm_compute in H1. injection H1 as <- <-.
    vm_compute in H2. discriminate H2.
Defined.

Lemma set_layout_witness :
  {| valid := "1"%char; tag := 0; count := 1 |} = empty_line
  ∨ is_valid {| valid := "1"%char; tag := 0; count := 1 |}.
Proof.
  destruct (set_layout g111 warm111) as [Hlines _].
  - exact valid_g111.
  - exact reachable_warm111.
  - apply (Hlines 0%nat 0%nat). reflexivity.
Defined.

Lemma main_exit_status_witness :
  main atoi_sign read_trace111 malloc_yes opts_neg = Exits 1.
Proof.
  destruct (main_exit_status atoi_sign read_trace111 malloc_yes opts_neg)
    as (_ & _ & _ & Hbig).
  apply (Hbig {| opt_b := 1; opt_s := 1; opt_E := -1;
                 trace_file := Some (String.String "f"%char
                                       String.EmptyString);
                 verbosity := 0 |}).
  - reflexivity.
  - reflexivity.
  - right. simpl. unfold num_sets, INT_MIN. simpl. lia.
Defined.


Lemma working_set_fits_witness :
  ∃ st', access_all g121 [0; 8; 0] fresh121
         = Some ([MissFill; MissFill; Hit], st')
         ∧ evict_cnt st' = 0.
Proof.
  destruct (working_set_fits g121 [0; 8; 0] fresh121)
    as (st' & Hrun & He & _).
  - exact valid_g121.
  - reflexivity.
  - reflexivity.
  - intros a Ha. unfold is_addr.
    repeat (apply elem_of_cons in Ha as [->|Ha]); try lia.
    by apply elem_of_nil in Ha.
  - intros a Ha.
    apply elem_of_cons in Ha as [->|Ha]; [vm_compute; discriminate|].
    apply elem_of_cons in Ha as [->|Ha]; [vm_compute; discriminate|].
    apply elem_of_cons in Ha as [->|Ha]; [vm_compute; discriminate|].
    by apply elem_of_nil in Ha.
  - exists st'. split; [exact Hrun|exact He].
Defined.

(** ** The stamps implement the LRU list *)

Lemma before_elem stack t t' : before stack t t' → t ∈ stack ∧ t' ∈ stack.
Proof.
  induction stack as [|x stack IH]; simpl; [done|].
  intros [[-> Hin]|Hb].
  - split; [by left|by right].
  - destruct (IH Hb). split; by right.
Qed.

Lemma before_ne stack t t' : NoDup stack → before stack t t' → t ≠ t'.
Proof.
  induction stack as [|x stack IH]; simpl; [done|].
  intros [Hx Hnd]%NoDup_cons [[<- Hin]|Hb]; [|by apply IH].
  intros <-. done.
Qed.

Lemma before_filter (P : Z → Prop) `{∀ x, Decision (P x)} stack t t' :
  before (filter P stack) t t' → before stack t t'.
Proof.
  induction stack as [|x stack IH]; simpl; [done|].
  rewrite filter_cons. destruct (decide (P x)); simpl.
  - intros [[-> Hin]|Hb].
    + left. split; [done|]. by apply list_elem_of_filter in Hin as [_ ?].
    + right. by apply IH.
  - intros Hb. right. by apply IH.
Qed.

Lemma before_app_l stack r t t' :
  before stack t t' → before (stack ++ r) t t'.
Proof.
  induction stack as [|x stack IH]; simpl; [done|].
  intros [[-> Hin]|Hb].
  - left. split; [done|]. apply elem_of_app. by left.
  - right. by apply IH.
Qed.

Lemma before_app_r stack r t t' :
  before stack t t' → before (r ++ stack) t t'.
Proof. intros Hb. induction r as [|x r IH]; simpl; [done|by right]. Qed.

(** An element of a duplicate-free list that comes before no other is the
    last one. *)
Lemma last_of_list stack t :
  t ∈ stack → (∀ x, ¬ before stack t x) → ∃ stack0, stack = stack0 ++ [t].
Proof.
  intros (l1 & l2 & ->)%list_elem_of_split Hlast.
  destruct l2 as [|x l2]; [by exists l1|].
  destruct (Hlast x). apply before_app_r. simpl. left.
  split; [done|by left].
Qed.

Lemma set_models_ext c c' i stack :
  (∀ j, line_at c' i j = line_at c i j) →
  set_models c i stack → set_models c' i stack.
Proof.
  intros Hext [H1 H2 H3 H4]. split; [| |done|].
  - intros j l. rewrite Hext. apply H1.
  - intros t (j & l & Hl & Hh)%H2. exists j, l. by rewrite Hext.
  - intros t t' j j' l l' Hb. rewrite !Hext. by apply H4.
Qed.

(** The store of a call, seen on the list: the written line takes the front
    with the tag [t]; the tag it held, if it was valid, leaves the list. *)
Lemma set_models_write g st i k f cs lk t stack rest :
  Inv g st → cache st !! i = Some cs → cs !! k = Some lk →
  hits_tag t (f lk) → count (f lk) = counter st →
  set_models (cache st) i stack →
  (∀ x, x ∈ rest ↔ x ∈ stack ∧ (is_valid lk → x ≠ tag lk)) →
  NoDup rest → t ∉ rest →
  (∀ x y, before rest x y → before stack x y) →
  set_models (write_line (cache st) i k f) i (t :: rest).
Proof.
  intros HI Hcs Hlk Hnew Hcnt [H1 H2 H3 H4] Hrest Hnd Hnot Hbefore.
  assert (Hlines : ∀ j l,
    line_at (write_line (cache st) i k f) i j = Some l →
    (j = k ∧ l = f lk) ∨ (j ≠ k ∧ line_at (cache st) i j = Some l)).
  { intros j l. rewrite line_at_write.
    destruct (decide ((i, j) = (i, k))) as [Hd|Hd].
    - rewrite (line_at_set _ _ _ _ Hcs), Hlk. simpl. intros [= <-].
      left. split; [congruence|done].
    - intros Hl. right. split; [congruence|done]. }
  assert (Hother : ∀ j l,
    j ≠ k → line_at (cache st) i j = Some l → is_valid l → tag l ∈ rest).
  { intros j l Hne Hl Hv. apply Hrest. split; [by apply (H1 j)|].
    intros Hvk Heq. apply Hne.
    apply (inv_tags _ _ HI i j k l lk); try done.
    by rewrite (line_at_set _ _ _ _ Hcs). }
  split.
  - intros j l Hl Hv. destruct (Hlines j l Hl) as [[-> ->]|[Hne Hold]].
    + destruct Hnew as [_ ->]. by left.
    + right. by apply (Hother j).
  - intros x [->|Hx]%elem_of_cons.
    + exists k, (f lk). split; [|done].
      rewrite line_at_write_eq, (line_at_set _ _ _ _ Hcs), Hlk. done.
    + apply Hrest in Hx as [Hx Hnk].
      destruct (H2 x Hx) as (j & l & Hl & Hv & Ht).
      exists j, l. split; [|done]. rewrite line_at_write_ne; [done|].
      intros [= ->]. rewrite (line_at_set _ _ _ _ Hcs), Hlk in Hl.
      injection Hl as <-. by apply Hnk.
  - apply NoDup_cons. by split.
  - intros x y j j' l l' Hb Hl Hl' [Hv Hx] [Hv' Hy].
    assert (j' ≠ k ∧ y ∈ rest ∧ line_at (cache st) i j' = Some l')
      as (Hj' & Hyr & Hold').
    { assert (y ∈ rest) as Hyr.
      { simpl in Hb. destruct Hb as [[_ ?]|Hb]; [done|].
        by destruct (before_elem _ _ _ Hb). }
      destruct (Hlines j' l' Hl') as [[-> ->]|[? ?]]; [|done].
      destruct Hnew as [_ Ht]. destruct Hnot. congruence. }
    pose proof (inv_count _ _ HI _ _ _ Hold' Hv') as Hc'.
    destruct (Hlines j l Hl) as [[-> ->]|[Hne Hold]]; [lia|].
    assert (x ∈ rest) as Hxr by (rewrite <- Hx; by apply (Hother j)).
    simpl in Hb. destruct Hb as [[<- _]|Hb]; [done|].
    by apply (H4 x y j j' l l'); [apply Hbefore|..].
Qed.

Lemma tags_nodup g st i cs :
  Inv g st → cache st !! i = Some cs →
  (∀ j l, cs !! j = Some l → is_valid l) → NoDup (tag <$> cs).
Proof.
  intros HI Hcs Hall. apply NoDup_alt. intros j j' x.
  rewrite !list_lookup_fmap.
  destruct (cs !! j) as [l|] eqn:Hl; simpl; [|done].
  destruct (cs !! j') as [l'|] eqn:Hl'; simpl; [|done].
  intros [= <-] [= Ht].
  apply (inv_tags _ _ HI i j j' l l');
    rewrite ?(line_at_set _ _ _ _ Hcs); eauto.
Qed.

(** A set with a free line holds fewer than [E] tags. *)
Lemma free_line_short c i cs k lk stack :
  c !! i = Some cs → cs !! k = Some lk → is_free lk →
  set_models c i stack → (length stack < length cs)%nat.
Proof.
  intros Hcs Hlk Hfree [_ H2 H3 _].
  assert (∀ x, x ∈ stack → x ∈ tag <$> delete k cs) as Hsub.
  { intros x (j & l & Hl & Hv & <-)%H2.
    rewrite (line_at_set _ _ _ _ Hcs) in Hl.
    apply list_elem_of_fmap_2, list_elem_of_lookup.
    destruct (Nat.lt_trichotomy j k) as [Hlt|[->|Hgt]].
    - exists j. by rewrite list_lookup_delete_lt.
    - replace l with lk in Hv by congruence.
      by destruct (free_not_valid lk).
    - exists (pred j). rewrite list_lookup_delete_ge by lia.
      by replace (S (pred j)) with j by lia. }
  pose proof (submseteq_length _ _ (NoDup_submseteq _ _ H3 Hsub)) as Hle.
  rewrite length_fmap, length_delete in Hle by eauto.
  pose proof (lookup_lt_Some _ _ _ Hlk). lia.
Qed.

(** One call of [access_data] is one step of the LRU list of its set. *)
Lemma lru_step g a st m :
  Inv g st → valid_config g → counter st < INT_MAX →
  (∀ i, set_models (cache st) i (m i)) →
  ∃ st1,
    access_data g a st = Some (fst (lru_access g a m), st1)
    ∧ ∀ i, set_models (cache st1) i (snd (lru_access g a m) i).
Proof.
  intros HI Hg Hc Hm.
  destruct (access_data_run g a st HI Hg Hc) as (cs & Hcs & Hlen & Hp).
  set (i0 := Z.to_nat (set_of g a)) in *. set (t := tag_of g a) in *.
  pose proof (Hm i0) as Hm0. pose proof Hm0 as [H1 H2 H3 H4].
  assert (Hgo : ∀ o k f lk rest c',
    access_data g a st = Some (o, c') →
    cache c' = write_line (cache st) i0 k f →
    lru_touch (Z.to_nat (E g)) t (m i0) = (o, t :: rest) →
    cs !! k = Some lk → hits_tag t (f lk) → count (f lk) = counter st →
    (∀ x, x ∈ rest ↔ x ∈ m i0 ∧ (is_valid lk → x ≠ tag lk)) →
    NoDup rest → t ∉ rest →
    (∀ x y, before rest x y → before (m i0) x y) →
    ∃ st1,
      access_data g a st = Some (fst (lru_access g a m), st1)
      ∧ ∀ i, set_models (cache st1) i (snd (lru_access g a m) i)).
  { intros o k f lk rest c' Hacc Hc' Htouch Hlk Hnew Hcnt Hrest Hnd Hnot Hbef.
    exists c'. unfold lru_access. fold i0 t. rewrite Htouch. simpl.
    split; [done|]. intros i. rewrite Hc'. case_decide as Hi.
    - subst i. by apply (set_models_write g st i0 k f cs lk t (m i0) rest).
    - apply (set_models_ext (cache st)); [|done].
      intros j. apply line_at_write_ne. congruence. }
  assert (Habsent : absent t cs → t ∉ m i0).
  { intros Habs (j & l & Hl & Hh)%H2.
    rewrite (line_at_set _ _ _ _ Hcs) in Hl. by apply (Habs j l). }
  destruct Hp as [(k & [(lk & Hlk & Hv & Ht) _] & Heq)
                 |[(Habs & k & [(lk & Hlk & Hfree) _] & Heq)
                  |(Habs & Hall & e & (le & Hle & Hlt) & Heq)]].
  - (* hit: the tag moves to the front *)
    assert (t ∈ m i0) as Hin.
    { rewrite <- Ht. apply (H1 k); [|done].
      by rewrite (line_at_set _ _ _ _ Hcs). }
    apply (Hgo Hit k (set_count (counter st)) lk
             (filter (λ x, x ≠ t) (m i0)) _ Heq); try done.
    + unfold lru_touch. by rewrite bool_decide_eq_true_2.
    + intros x. rewrite list_elem_of_filter, Ht. tauto.
    + by apply NoDup_filter.
    + rewrite list_elem_of_filter. tauto.
    + intros x y. apply before_filter.
  - (* fill: the tag is put in front *)
    pose proof (Habsent Habs) as Hnot.
    apply (Hgo MissFill k (fill_line t (counter st)) lk (m i0) _ Heq);
      try done.
    + unfold lru_touch. rewrite bool_decide_eq_false_2 by done.
      pose proof (free_line_short _ _ _ _ _ _ Hcs Hlk Hfree Hm0) as Hshort.
      rewrite Hlen in Hshort.
      by destruct (Nat.ltb_spec (length (m i0)) (Z.to_nat (E g))); [|lia].
    + intros x. split; [|tauto]. intros Hx. split; [done|].
      intros Hvk. by destruct (free_not_valid lk).
  - (* eviction: the last tag of the list leaves *)
    pose proof (Habsent Habs) as Hnot.
    assert (tag le ∈ m i0) as Hte.
    { apply (H1 e); [by rewrite (line_at_set _ _ _ _ Hcs)|by apply (Hall e)]. }
    destruct (last_of_list (m i0) (tag le) Hte) as [stack0 Hstack].
    { intros x Hb. destruct (before_elem _ _ _ Hb) as [_ Hx].
      destruct (H2 x Hx) as (j & l & Hl & Hh).
      pose proof (H4 (tag le) x e j le l Hb) as Hord.
      rewrite !(line_at_set _ _ _ _ Hcs) in Hord.
      rewrite (line_at_set _ _ _ _ Hcs) in Hl.
      specialize (Hord Hle Hl (conj (Hall e le Hle) eq_refl) Hh).
      destruct (decide (j = e)) as [->|Hne].
      - replace l with le in * by congruence. lia.
      - pose proof (Hlt j l Hne Hl). lia. }
    assert ((tag le ∉ stack0) ∧ NoDup stack0) as [Hte0 Hnd0].
    { rewrite Hstack in H3. apply NoDup_app in H3 as (? & Hd & _).
      split; [|done]. intros Hin. apply (Hd _ Hin). by left. }
    apply (Hgo MissEvict e (fill_line t (counter st)) le stack0 _ Heq);
      try done.
    + unfold lru_touch. rewrite bool_decide_eq_false_2 by done.
      assert (length cs <= length (m i0))%nat as Hfull.
      { rewrite <- (length_fmap tag cs). apply submseteq_length.
        apply NoDup_submseteq; [by apply (tags_nodup g st i0)|].
        intros x (l & -> & Hl)%list_elem_of_fmap.
        apply list_elem_of_lookup in Hl as [j Hj].
        apply (H1 j); [by rewrite (line_at_set _ _ _ _ Hcs)|by apply (Hall j)]. }
      rewrite Hlen in Hfull.
      destruct (Nat.ltb_spec (length (m i0)) (Z.to_nat (E g))); [lia|].
      by rewrite Hstack, List.removelast_last.
    + intros x. rewrite Hstack, elem_of_app, list_elem_of_singleton.
      split.
      * intros Hx. split; [by left|]. intros _ ->. done.
      * intros [[? | ->] Hne]; [done|].
        destruct Hne; [by apply (Hall e)|done].
    + intros Hin. apply Hnot. rewrite Hstack. apply elem_of_app. by left.
    + intros x y Hb. rewrite Hstack. by apply before_app_l.
Qed.

Lemma lru_run_sound g l :
  valid_config g →
  ∀ st m,
    Inv g st → counter st + Z.of_nat (length l) <= INT_MAX →
    (∀ i, set_models (cache st) i (m i)) →
    ∃ st',
      access_all g l st = Some (fst (lru_run g l m), st')
      ∧ ∀ i, set_models (cache st') i (snd (lru_run g l m) i).
Proof.
  intros Hg. induction l as [|a l IH]; intros st m HI Hc Hm.
  - by exists st.
  - simpl in Hc.
    destruct (lru_step g a st m HI Hg) as (st1 & Hacc & Hm1); [lia|done|].
    assert (Inv g st1) as HI1 by (eapply Inv_step; [done|done|lia|exact Hacc]).
    assert (counter st1 = counter st + 1) as Hk.
    { destruct (access_touch g a st HI Hg) as
        (o & st1' & _ & _ & Hacc' & _ & Hk & _); [lia|].
      rewrite Hacc in Hacc'. by injection Hacc' as _ <-. }
    destruct (lru_access g a m) as [o m1] eqn:Hstep. simpl in Hacc, Hm1.
    destruct (IH st1 m1 HI1) as (st' & Hrun & Hm'); [lia|done|].
    exists st'. simpl. rewrite Hstep.
    destruct (lru_run g l m1) as [os m2] eqn:Hrest. simpl in Hrun, Hm'.
    rewrite Hacc. simpl. rewrite Hrun. simpl. done.
Qed.

(** X15. The stamps of [access_data] implement the textbook LRU list.  On any
    call sequence shorter than [INT_MAX], from a fresh cache, the outcomes
    are those of one most-recently-used-first list of at most [E] tags per
    set; at the end the tags of the valid lines of each set are exactly
    those of its list, each in one line, and a tag earlier in the list has
    the larger stamp. *)
Theorem lru_list_refinement (g : config) (l : list Z) (st0 : state) :
  valid_config g → init_cache g = Some st0 →
  Z.of_nat (length l) < INT_MAX →
  ∃ st',
    access_all g l st0 = Some (fst (lru_run g l lru_init), st')
    ∧ (∀ i t, resident (cache st') i t ↔ t ∈ snd (lru_run g l lru_init) i)
    ∧ ∀ i, set_models (cache st') i (snd (lru_run g l lru_init) i).
Proof.
  intros Hg Hinit Hlen.
  pose proof (Inv_init g st0 Hinit) as HI0.
  destruct (lru_run_sound g l Hg st0 lru_init HI0) as (st' & Hrun & Hm).
  - destruct (init_cache_Some g st0 Hinit) as (_ & ->). simpl. lia.
  - intros i. split.
    + intros j ln Hl Hv.
      by rewrite (init_line_at g st0 i j ln Hinit Hl) in Hv.
    + intros t Ht. by apply elem_of_nil in Ht.
    + apply NoDup_nil_2.
    + intros t t' j j' ln ln' Hb. done.
  - exists st'. split; [done|]. split; [|done].
    intros i t. split.
    + intros (j & ln & Hl & Hv & <-). by apply (sm_in _ _ _ (Hm i) j).
    + apply (sm_line _ _ _ (Hm i)).
Qed.

Lemma lru_list_refinement_witness :
  ∃ st', access_all g121 [0; 8; 0; 16; 8] fresh121
         = Some ([MissFill; MissFill; Hit; MissEvict; MissEvict], st')
         ∧ (resident (cache st') 0 4 ↔ 4 ∈ [2; 4]).
Proof.
  destruct (lru_list_refinement g121 [0; 8; 0; 16; 8] fresh121)
    as (st' & Hrun & Hres & _).
  - exact valid_g121.
  - reflexivity.
  - reflexivity.
  - exists st'. split; [exact Hrun|]. exact (Hres 0%nat 4).
Defined.

(** ** The counters count the outcomes *)

Lemma counters_step g a st o st' :
  Inv g st → valid_config g → counter st < INT_MAX →
  access_data g a st = Some (o, st') →
  hit_cnt st' = hit_cnt st + (if negb (is_miss o) then 1 else 0)
  ∧ miss_cnt st' = miss_cnt st + (if is_miss o then 1 else 0)
  ∧ evict_cnt st' = evict_cnt st + (if is_evict o then 1 else 0).
Proof.
  intros HI Hg Hc Hacc.
  destruct (access_data_run g a st HI Hg Hc) as (cs & _ & _ & Hp).
  destruct Hp as [(? & _ & Heq)|[(_ & ? & _ & Heq)|(_ & _ & ? & _ & Heq)]];
    rewrite Heq in Hacc; injection Hacc as <- <-; simpl; lia.
Qed.

Lemma counters_run g l :
  valid_config g →
  ∀ st os st',
    Inv g st → counter st + Z.of_nat (length l) <= INT_MAX →
    access_all g l st = Some (os, st') →
    hit_cnt st' = hit_cnt st + count_if (λ o, negb (is_miss o)) os
    ∧ miss_cnt st' = miss_cnt st + count_if is_miss os
    ∧ evict_cnt st' = evict_cnt st + count_if is_evict os.
Proof.
  intros Hg. induction l as [|a l IH]; intros st os st' HI Hc; simpl.
  - intros [= <- <-]. unfold count_if. simpl. lia.
  - simpl in Hc.
    destruct (access_data g a st) as [[o st1]|] eqn:Hacc; simpl; [|done].
    destruct (access_all g l st1) as [[os1 st2]|] eqn:Hall; simpl; [|done].
    intros [= <- <-].
    destruct (counters_step g a st o st1 HI Hg) as (Hh & Hm & He);
      [lia|done|].
    assert (Inv g st1) as HI1 by (eapply Inv_step; [done|done|lia|exact Hacc]).
    assert (counter st1 = counter st + 1) as Hk.
    { destruct (access_touch g a st HI Hg) as
        (o' & st1' & _ & _ & Hacc' & _ & Hk & _); [lia|].
      rewrite Hacc in Hacc'. by injection Hacc' as _ <-. }
    destruct (IH st1 os1 st2 HI1) as (Hh' & Hm' & He'); [lia|done|].
    unfold count_if in *. simpl. fold (total (A:=outcome)). lia.
Qed.

(** X16. Each counter counts what its name says: after any call sequence
    shorter than [INT_MAX] from a fresh cache, [hit_cnt] is the number of
    calls that returned through the hit path, [miss_cnt] the number of the
    others, and [evict_cnt] the number of those that returned through the
    eviction path. *)
Theorem counters_count_outcomes (g : config) (l : list Z) (st0 : state) :
  valid_config g → init_cache g = Some st0 →
  Z.of_nat (length l) < INT_MAX →
  ∃ os st',
    access_all g l st0 = Some (os, st')
    ∧ hit_cnt st' = count_if (λ o, negb (is_miss o)) os
    ∧ miss_cnt st' = count_if is_miss os
    ∧ evict_cnt st' = count_if is_evict os.
Proof.
  intros Hg Hinit Hlen.
  pose proof (Inv_init g st0 Hinit) as HI0.
  destruct (init_cache_Some g st0 Hinit) as (_ & Hst0).
  assert (counter st0 + Z.of_nat (length l) <= INT_MAX) as Hc.
  { subst st0. simpl. lia. }
  destruct (access_all_run g l st0 HI0 Hg Hc) as (os & st' & Hrun & _).
  destruct (counters_run g l Hg st0 os st' HI0 Hc Hrun) as (Hh & Hm & He).
  exists os, st'. subst st0. simpl in *. split_and!; [done|lia..].
Qed.

Lemma counters_count_outcomes_witness :
  ∃ os st',
    access_all g111 [0; 8; 0] fresh111 = Some (os, st')
    ∧ miss_cnt st' = count_if is_miss os.
Proof.
  destruct (counters_count_outcomes g111 [0; 8; 0] fresh111)
    as (os & st' & Hrun & _ & Hm & _).
  - exact valid_g111.
  - reflexivity.
  - reflexivity.
  - exists os, st'. split; [exact Hrun|exact Hm].
Defined.

(** ** More lines per set *)

Lemma filter_absent (t : Z) (l : list Z) :
  t ∉ l → filter (λ x, x ≠ t) l = l.
Proof.
  induction l as [|x l IH]; [done|].
  intros Hnot. rewrite filter_cons_True.
  - rewrite IH; [done|]. intros Hin. apply Hnot. by right.
  - intros ->. apply Hnot. by left.
Qed.

Lemma removelast_take (l : list Z) :
  List.removelast l = take (length l - 1) l.
Proof.
  rewrite List.removelast_firstn_len.
  by replace (Nat.pred (length l)) with (length l - 1)%nat by lia.
Qed.

(** The list kept with [n + 1] places is the front of the list kept with
    more places, before and after any tag is used. *)
Lemma lru_touch_prefix n E' t (s' : list Z) :
  (S n <= E')%nat → NoDup s' → (length s' <= E')%nat →
  snd (lru_touch (S n) t (take (S n) s'))
  = take (S n) (snd (lru_touch E' t s'))
  ∧ NoDup (snd (lru_touch E' t s'))
  ∧ (length (snd (lru_touch E' t s')) <= E')%nat
  ∧ (fst (lru_touch (S n) t (take (S n) s')) = Hit →
     fst (lru_touch E' t s') = Hit).
Proof.
  intros HE Hnd Hlen. unfold lru_touch.
  destruct (decide (t ∈ s')) as [Hin|Hnot].
  - rewrite (bool_decide_eq_true_2 (t ∈ s')) by done.
    destruct (list_elem_of_split _ _ Hin) as (l1 & l2 & ->).
    apply NoDup_app in Hnd as (Hnd1 & Hd1 & [Hn2 Hnd2]%NoDup_cons).
    assert (t ∉ l1) as Hn1.
    { intros H1. apply (Hd1 _ H1). by left. }
    assert (filter (λ x, x ≠ t) (l1 ++ t :: l2) = l1 ++ l2) as Hf.
    { rewrite filter_app, filter_cons_False by tauto.
      by rewrite !filter_absent. }
    rewrite Hf. simpl.
    assert (NoDup (l1 ++ l2)) as Hnd12.
    { apply NoDup_app. split_and!; [done| |done].
      intros x Hx1 Hx2. apply (Hd1 x Hx1). by right. }
    split_and!; try done.
    + destruct (decide (length l1 <= n)%nat) as [Hle|Hgt].
      * (* the tag is within the first places: a hit in both *)
        rewrite (take_app_ge l1 (t :: l2)) by lia.
        replace (S n - length l1)%nat with (S (n - length l1)) by lia.
        simpl. rewrite bool_decide_eq_true_2.
        2:{ apply elem_of_app. right. by left. }
        simpl. f_equal. rewrite filter_app, filter_cons_False by tauto.
        rewrite filter_absent by done.
        rewrite filter_absent.
        2:{ intros Hx. apply Hn2. by apply (subseteq_take _ _ _ Hx). }
        by rewrite take_app_ge by lia.
      * (* the tag is further down: the short list evicts *)
        rewrite (take_app_le l1 (t :: l2)) by lia.
        rewrite bool_decide_eq_false_2.
        2:{ intros Hx. apply Hn1. by apply (subseteq_take _ _ _ Hx). }
        rewrite length_take_le by lia.
        destruct (Nat.ltb_spec (S n) (S n)); [lia|]. simpl. f_equal.
        rewrite removelast_take, length_take_le, take_take by lia.
        rewrite take_app_le by lia.
        by replace ((S n - 1) `min` S n)%nat with n by lia.
    + apply NoDup_cons. split; [|done].
      intros [?|?]%elem_of_app; done.
    + simpl. rewrite length_app in *. simpl in Hlen. lia.
  - rewrite (bool_decide_eq_false_2 (t ∈ s')) by done.
    rewrite bool_decide_eq_false_2.
    2:{ intros Hx. apply Hnot. by apply (subseteq_take _ _ _ Hx). }
    assert (List.removelast (take (S n) s') = take n s'
            ∨ (length s' <= n)%nat) as Hshort.
    { destruct (decide (length s' <= n)%nat); [by right|left].
      rewrite removelast_take, length_take_le, take_take by lia.
      by replace ((S n - 1) `min` S n)%nat with n by lia. }
    assert (NoDup (List.removelast s') ∧ (t ∉ List.removelast s')
            ∧ (length (List.removelast s') <= length s')%nat)
      as (Hndr & Hnr & Hlr).
    { rewrite removelast_take. split_and!.
      - by apply (sublist_NoDup _ s'); [|apply sublist_take].
      - intros Hx. apply Hnot. by apply (subseteq_take _ _ _ Hx).
      - rewrite length_take. lia. }
    destruct (Nat.ltb_spec (length (take (S n) s')) (S n)) as [Hl|Hl];
      destruct (Nat.ltb_spec (length s') E') as [Hl'|Hl']; simpl;
      rewrite length_take in Hl; split_and!; try done;
      try (apply NoDup_cons; by split); try lia.
    + f_equal. rewrite !take_ge by lia. done.
    + f_equal. destruct Hshort as [->|?]; [done|lia].
    + f_equal. destruct Hshort as [->|?]; [|lia].
      rewrite removelast_take, take_take.
      by replace (n `min` (length s' - 1))%nat with n by lia.
    + rewrite removelast_take, length_take. lia.
Qed.

Lemma count_if_mono (p q : outcome → bool) os os' :
  Forall2 (λ o o', p o = true → q o' = true) os os' →
  count_if p os <= count_if q os'.
Proof.
  unfold count_if. intros HF.
  induction HF as [|o o' os os' Hpq _ IH]; simpl; [lia|].
  fold (total (λ o, if p o then 1 else 0) os).
  fold (total (λ o, if q o then 1 else 0) os').
  destruct (p o), (q o'); try lia.
Qed.

Lemma lru_run_prefix g g' l :
  b g' = b g → s g' = s g →
  (0 < Z.to_nat (E g) <= Z.to_nat (E g'))%nat →
  ∀ m m',
    (∀ i, m i = take (Z.to_nat (E g)) (m' i) ∧ NoDup (m' i)
          ∧ (length (m' i) <= Z.to_nat (E g'))%nat) →
    Forall2 (λ o o', o = Hit → o' = Hit)
      (fst (lru_run g l m)) (fst (lru_run g' l m'))
    ∧ ∀ i, snd (lru_run g l m) i
           = take (Z.to_nat (E g)) (snd (lru_run g' l m') i).
Proof.
  intros Hb Hs HE. induction l as [|a l IH]; intros m m' Hm; simpl.
  - split; [constructor|]. intros i. by destruct (Hm i).
  - assert (set_of g' a = set_of g a) as Hset.
    { unfold set_of, sBitMask. by rewrite Hb, Hs. }
    assert (tag_of g' a = tag_of g a) as Htag.
    { unfold tag_of, tBitMask. by rewrite Hb, Hs. }
    unfold lru_access. rewrite Hset, Htag.
    set (i0 := Z.to_nat (set_of g a)). set (t := tag_of g a).
    destruct (Hm i0) as (Hpre & Hnd & Hlen).
    destruct (Z.to_nat (E g)) as [|n] eqn:HEg; [lia|].
    pose proof (lru_touch_prefix n (Z.to_nat (E g')) t (m' i0)
                  (proj2 HE) Hnd Hlen) as (H1 & H2 & H3 & H4).
    rewrite <- Hpre in H1, H4.
    destruct (lru_touch (S n) t (m i0)) as [o s1].
    destruct (lru_touch (Z.to_nat (E g')) t (m' i0)) as [o' s1'].
    simpl in H1, H2, H3, H4.
    specialize (IH (λ i, if decide (i = i0) then s1 else m i)
                   (λ i, if decide (i = i0) then s1' else m' i)).
    destruct IH as [IH1 IH2].
    { intros i. case_decide; [done|apply Hm]. }
    destruct (lru_run g l _) as [os m2].
    destruct (lru_run g' l _) as [os' m2'].
    simpl in *. split; [by constructor|done].
Qed.

(** X17. Over fewer than [INT_MAX] calls, more lines per set do not turn a hit
    into a miss.  For two geometries with the same [b] and [s] and
    [E <= E'], replayed on the same sequence of fewer than [INT_MAX] calls
    from fresh caches: every call that hits with [E] lines hits with [E']
    lines, so the larger cache counts at least as many hits, and at the end
    every block held by the smaller cache is held by the larger one. *)
Theorem more_lines_more_hits (g g' : config) (l : list Z)
    (st0 st0' : state) :
  valid_config g → valid_config g' →
  b g' = b g → s g' = s g → E g <= E g' →
  init_cache g = Some st0 → init_cache g' = Some st0' →
  Z.of_nat (length l) < INT_MAX →
  ∃ os st os' st',
    access_all g l st0 = Some (os, st)
    ∧ access_all g' l st0' = Some (os', st')
    ∧ Forall2 (λ o o', o = Hit → o' = Hit) os os'
    ∧ hit_cnt st <= hit_cnt st'
    ∧ ∀ i t, resident (cache st) i t → resident (cache st') i t.
Proof.
  intros Hg Hg' Hb Hs HE Hinit Hinit' Hlen.
  assert (Hfresh : ∀ h c0, init_cache h = Some c0 →
    Inv h c0 ∧ counter c0 + Z.of_nat (length l) <= INT_MAX
    ∧ hit_cnt c0 = 0
    ∧ ∀ i, set_models (cache c0) i (lru_init i)).
  { intros h c0 Hi. split; [by apply Inv_init|].
    pose proof (init_line_at h c0) as Hline.
    destruct (init_cache_Some h c0 Hi) as (_ & Hc0).
    split; [subst c0; simpl; lia|]. split; [by subst c0|].
    intros i. split.
    - intros j ln Hl Hv. by rewrite (Hline i j ln Hi Hl) in Hv.
    - intros t Ht. by apply elem_of_nil in Ht.
    - apply NoDup_nil_2.
    - intros t t' j j' ln ln' Hbf. done. }
  destruct (Hfresh g st0 Hinit) as (HI & Hc & Hh0 & Hm).
  destruct (Hfresh g' st0' Hinit') as (HI' & Hc' & Hh0' & Hm').
  destruct (lru_run_sound g l Hg st0 lru_init HI Hc Hm) as (st & Hrun & Hfin).
  destruct (lru_run_sound g' l Hg' st0' lru_init HI' Hc' Hm')
    as (st' & Hrun' & Hfin').
  destruct (lru_run_prefix g g' l Hb Hs) with (m := lru_init) (m' := lru_init)
    as [Hos Hpre].
  { destruct Hg as [_ ?]. lia. }
  { intros i. unfold lru_init. rewrite take_nil.
    split_and!; [done|apply NoDup_nil_2|simpl; lia]. }
  destruct (counters_run g l Hg st0 _ st HI Hc Hrun) as (Hh & _).
  destruct (counters_run g' l Hg' st0' _ st' HI' Hc' Hrun') as (Hh' & _).
  eexists _, st, _, st'. split_and!; [done|done|done| |].
  - rewrite Hh, Hh', Hh0, Hh0'.
    assert (count_if (λ o, negb (is_miss o)) (fst (lru_run g l lru_init))
            <= count_if (λ o, negb (is_miss o))
                 (fst (lru_run g' l lru_init))); [|lia].
    apply count_if_mono. eapply Forall2_impl; [exact Hos|].
    intros o o' Himp Ho. destruct o; try done. by rewrite Himp.
  - intros i t (j & ln & Hl & Hv & <-).
    apply (sm_line _ _ _ (Hfin' i)).
    apply (subseteq_take (Z.to_nat (E g))). rewrite <- Hpre.
    by apply (sm_in _ _ _ (Hfin i) j).
Qed.

Lemma more_lines_more_hits_witness :
  ∃ os st os' st',
    access_all g111 [0; 8; 0] fresh111 = Some (os, st)
    ∧ access_all g121 [0; 8; 0] fresh121 = Some (os', st')
    ∧ hit_cnt st <= hit_cnt st'.
Proof.
  destruct (more_lines_more_hits g111 g121 [0; 8; 0] fresh111 fresh121)
    as (os & st & os' & st' & Hrun & Hrun' & _ & Hh & _).
  - exact valid_g111.
  - exact valid_g121.
  - reflexivity.
  - reflexivity.
  - simpl. lia.
  - reflexivity.
  - reflexivity.
  - reflexivity.
  - exists os, st, os', st'.
    split; [exact Hrun|]. split; [exact Hrun'|exact Hh].
Defined.
